(** * PCB reverse-engineering backend: detection merge, NMS and connectivity

    A shallow embedding of the algorithmic core of the backend
    ([app/services/detector.py], [app/services/tracer.py],
    [app/services/schematic_builder.py], [app/services/ocr_service.py],
    the crop of [app/utils/image_processing.py] and the naming loop of
    [app/main.py]) together with the properties the specification states
    about it, and further properties of the code.

    Conventions of the embedding:
    - Python [float] values are exact rationals ([Q]); comparisons on them
      are the exact ones, results are compared with [==] ([Qeq]).  Where
      the rounding of binary64 decides a statement, the function is given
      a second time on the floats themselves ([Binary64]).
    - Python [int] values are [Z]; [//] is floor division ([Z.div]),
      [int(f)] truncates toward zero.
    - a [dict] used as a record of known keys is a record whose fields are
      optional (an absent key is [None], read with its [.get] default);
      a [dict] or graph used as a map is a [gmap], a set a [gset].
    - a Python exception is an explicit error result. *)

From Stdlib Require Import QArith Qminmax Qabs Qround Reals Qreals Psatz.
From Stdlib Require Import Ascii String.
From Stdlib Require PrimFloat.
From stdpp Require Import base option list sorting gmap strings sets pretty.

#[local] Set Warnings "-clear-no-such-hyp".

(** ** Python primitives *)

Module Py.

(** [a < b] on floats. *)
Definition Qlt_bool (a b : Q) : bool := negb (Qle_bool b a).

(** [int(f)]: truncation toward zero. *)
Definition int (f : Q) : Z := Z.quot (Qnum f) (Zpos (Qden f)).

(** [a // b] on ints, for a divisor that is not zero: the quotient is
    rounded toward minus infinity. *)
Definition floordiv (a b : Z) : Z := Z.div a b.

(** [a / b] on floats raises [ZeroDivisionError] when [b] is zero. *)
Definition truediv (a b : Q) : option Q :=
  if Qeq_bool b 0 then None else Some (a / b)%Q.

(** [list.sort(key=..., reverse=True)]: the sort is stable, also with
    [reverse=True], so equal keys keep their original order.  The result
    of a stable sort is unique; it is computed here by insertion from the
    right. *)
Section Sort.
Context {A : Type} (key : A → Q).

Fixpoint insert_desc (x : A) (l : list A) : list A :=
  match l with
  | [] => [x]
  | y :: l' =>
      if Qlt_bool (key x) (key y) then y :: insert_desc x l'
      else x :: y :: l'
  end.

Fixpoint sort_desc (l : list A) : list A :=
  match l with
  | [] => []
  | x :: l' => insert_desc x (sort_desc l')
  end.
End Sort.

(** [np.sqrt(s) < d] for a sum of squares [s], decided without the
    root: for [d <= 0] it is false, otherwise it is [s < d * d]
    (see [sqrt_lt_spec]). *)
Definition sqrt_lt (s d : Q) : bool :=
  Qlt_bool 0 d && Qlt_bool s (d * d).

(** One index of a slice [a[lo:hi]] on a sequence of length [n]: a
    negative index counts from the end, and the result is clamped to
    [0..n]. *)
Definition slice_index (n : Z) (i : Z) : Z :=
  if (i <? 0)%Z then Z.max 0 (i + n) else Z.min i n.

(** [l[lo:hi]] *)
Definition slice {A : Type} (lo hi : Z) (l : list A) : list A :=
  let n := Z.of_nat (length l) in
  let lo' := slice_index n lo in
  let hi' := slice_index n hi in
  take (Z.to_nat (hi' - lo')) (drop (Z.to_nat lo') l).

End Py.

(** ** app/services/detector.py *)

Module Detector.

(** A prediction as returned by the inference service: a dict with the
    keys [class], [confidence], [x], [y], [width], [height]; every read
    in the module goes through [.get] with a default, so each key may be
    absent. *)
Record prediction : Type := Prediction {
  p_class : option string;
  p_confidence : option Q;
  p_x : option Q;
  p_y : option Q;
  p_width : option Q;
  p_height : option Q;
}.

Definition CONFIDENCE_THRESHOLD : Q := 0.25.
Definition IOU_THRESHOLD : Q := 0.4.

(** [float(pred.get(k, 0.0))] *)
Definition get_float (v : option Q) : Q := default 0%Q v.

Record corners : Type := Corners { x1 : Q; y1 : Q; x2 : Q; y2 : Q }.

Definition _bbox_to_corners (pred : prediction) : corners :=
  let x_c := get_float (p_x pred) in
  let y_c := get_float (p_y pred) in
  let w := get_float (p_width pred) in
  let h := get_float (p_height pred) in
  {| x1 := x_c - w / 2; y1 := y_c - h / 2;
     x2 := x_c + w / 2; y2 := y_c + h / 2 |}%Q.

Definition _compute_iou (pred1 pred2 : prediction) : option Q :=
  let b1 := _bbox_to_corners pred1 in
  let b2 := _bbox_to_corners pred2 in
  let x_left := Qmax (x1 b1) (x1 b2) in
  let y_top := Qmax (y1 b1) (y1 b2) in
  let x_right := Qmin (x2 b1) (x2 b2) in
  let y_bottom := Qmin (y2 b1) (y2 b2) in
  if Qle_bool x_right x_left || Qle_bool y_bottom y_top then Some 0%Q
  else
    let intersection_area := ((x_right - x_left) * (y_bottom - y_top))%Q in
    let area1 := ((x2 b1 - x1 b1) * (y2 b1 - y1 b1))%Q in
    let area2 := ((x2 b2 - x1 b2) * (y2 b2 - y1 b2))%Q in
    if Qle_bool area1 0 || Qle_bool area2 0 then Some 0%Q
    else
      let union_area := (area1 + area2 - intersection_area)%Q in
      Py.truediv intersection_area union_area.

(** The inner loop of the suppression: is the candidate a duplicate of
    one of the kept predictions?  The loop stops at the first hit. *)
Fixpoint discarded (iou_threshold : Q) (cand : prediction)
    (kept : list prediction) : option bool :=
  match kept with
  | [] => Some false
  | kp :: kept' =>
      iou ← _compute_iou cand kp;
      if Qle_bool iou_threshold iou then Some true
      else discarded iou_threshold cand kept'
  end.

(** The outer loop: [kept] grows at its end. *)
Fixpoint suppress (iou_threshold : Q) (preds kept : list prediction)
    : option (list prediction) :=
  match preds with
  | [] => Some kept
  | cand :: preds' =>
      discard ← discarded iou_threshold cand kept;
      suppress iou_threshold preds'
        (if discard : bool then kept else kept ++ [cand])
  end.

Definition confidence (p : prediction) : Q := get_float (p_confidence p).

Definition _non_max_suppression (predictions : list prediction)
    (iou_threshold confidence_threshold : Q) : option (list prediction) :=
  let preds :=
    List.filter (λ p, Qle_bool confidence_threshold (confidence p))
      predictions in
  match preds with
  | [] => Some []
  | _ =>
      let preds := Py.sort_desc confidence preds in
      suppress iou_threshold preds []
  end.

(** The body of the loop over one tile's predictions in
    [detect_components]: [new_pred = dict(pred)], then [x] and [y] are
    overwritten with the tile offset added. *)
Definition merge_prediction (left top : Z) (pred : prediction)
    : prediction :=
  {| p_class := p_class pred;
     p_confidence := p_confidence pred;
     p_x := Some (default 0 (p_x pred) + inject_Z left)%Q;
     p_y := Some (default 0 (p_y pred) + inject_Z top)%Q;
     p_width := p_width pred;
     p_height := p_height pred |}.

(** [for pred in tile_result.get("predictions", []): ... append] *)
Definition merge_tile (left top : Z) (tile_predictions : list prediction)
    (merged_predictions : list prediction) : list prediction :=
  fold_left (λ merged pred, merged ++ [merge_prediction left top pred])
    tile_predictions merged_predictions.

End Detector.

(** ** app/services/detector.py, on binary64 floats

    [_compute_iou] once more, with the arithmetic of Python's [float]
    (IEEE 754 binary64, round to nearest even) in place of the exact
    one, for boxes that have their four keys. *)

Module Binary64.
Import PrimFloat.

Record box : Type := Box {
  x : float; y : float; width : float; height : float;
}.

(** Python's [max(a, b)] and [min(a, b)]: the first argument, unless the
    second is strictly larger (smaller). *)
Definition max (a b : float) : float := if ltb a b then b else a.
Definition min (a b : float) : float := if ltb b a then b else a.

Record corners : Type := Corners {
  x1 : float; y1 : float; x2 : float; y2 : float;
}.

Definition _bbox_to_corners (pred : box) : corners :=
  let x_c := x pred in
  let y_c := y pred in
  let w := width pred in
  let h := height pred in
  {| x1 := x_c - w / 2; y1 := y_c - h / 2;
     x2 := x_c + w / 2; y2 := y_c + h / 2 |}%float.

(** The division raises [ZeroDivisionError] on a zero divisor. *)
Definition _compute_iou (pred1 pred2 : box) : option float :=
  let b1 := _bbox_to_corners pred1 in
  let b2 := _bbox_to_corners pred2 in
  let x_left := max (x1 b1) (x1 b2) in
  let y_top := max (y1 b1) (y1 b2) in
  let x_right := min (x2 b1) (x2 b2) in
  let y_bottom := min (y2 b1) (y2 b2) in
  if leb x_right x_left || leb y_bottom y_top then Some 0%float
  else
    let intersection_area := ((x_right - x_left) * (y_bottom - y_top))%float in
    let area1 := ((x2 b1 - x1 b1) * (y2 b1 - y1 b1))%float in
    let area2 := ((x2 b2 - x1 b2) * (y2 b2 - y1 b2))%float in
    if leb area1 0 || leb area2 0 then Some 0%float
    else
      let union_area := (area1 + area2 - intersection_area)%float in
      if eqb union_area 0 then None
      else Some (intersection_area / union_area)%float.


End Binary64.

(** ** app/services/tracer.py *)

Module Tracer.

(** A binary track image: a two-dimensional [uint8] array, stored by
    rows; every row has the same length. *)
Definition image : Type := list (list Z).

(** [binary_image.shape] *)
Definition shape0 (img : image) : Z := Z.of_nat (length img).
Definition shape1 (img : image) : Z :=
  match img with
  | [] => 0
  | row :: _ => Z.of_nat (length row)
  end.

(** [img[ya:yb, xa:xb]] *)
Definition slice2 (ya yb xa xb : Z) (img : image) : image :=
  Py.slice xa xb <$> Py.slice ya yb img.

(** [region > 127], flattened *)
Definition white (region : image) : list Z :=
  List.filter (λ v, 127 <? v)%Z (concat region).

(** [region.size] *)
Definition np_size (region : image) : nat := length (concat region).

(** A component bounding box: centre and extent, as floats. *)
Record bbox : Type := BBox {
  bx : Q; by_ : Q; bwidth : Q; bheight : Q;
}.

Definition get_track_mask_at_point (binary_image : image) (x y : Z)
    (margin : Z) : bool :=
  let h := shape0 binary_image in
  let w := shape1 binary_image in
  let x_min := Z.max 0 (x - margin) in
  let x_max := Z.min w (x + margin) in
  let y_min := Z.max 0 (y - margin) in
  let y_max := Z.min h (y + margin) in
  let region := slice2 y_min y_max x_min x_max binary_image in
  (* np.any(region > 127) *)
  bool_decide (white region ≠ []).

(** The sample points on the four edges, in the order the loops append
    them: top, bottom, left, right. *)
Definition points_to_check (b : bbox) (sample_points : nat)
    : list (Z * Z) :=
  let x_center := Py.int (bx b) in
  let y_center := Py.int (by_ b) in
  let width := Py.int (bwidth b) in
  let height := Py.int (bheight b) in
  let x1 := (x_center - Py.floordiv width 2)%Z in
  let y1 := (y_center - Py.floordiv height 2)%Z in
  let x2 := (x_center + Py.floordiv width 2)%Z in
  let y2 := (y_center + Py.floordiv height 2)%Z in
  let range := Z.of_nat <$> seq 0 sample_points in
  let n := Z.of_nat sample_points in
  ((λ i, (x1 + Py.floordiv ((x2 - x1) * i) n, y1)%Z) <$> range)
  ++ ((λ i, (x1 + Py.floordiv ((x2 - x1) * i) n, y2)%Z) <$> range)
  ++ ((λ i, (x1, y1 + Py.floordiv ((y2 - y1) * i) n)%Z) <$> range)
  ++ ((λ i, (x2, y1 + Py.floordiv ((y2 - y1) * i) n)%Z) <$> range).

(** [track_hits] after the counting loop (default margin 5). *)
Definition track_hits (binary_image : image) (points : list (Z * Z))
    : nat :=
  length
    (List.filter (λ p, get_track_mask_at_point binary_image p.1 p.2 5)
       points).

Definition check_track_component_overlap (binary_image : image)
    (b : bbox) (sample_points : nat) (min_hit_ratio : Q) : option bool :=
  let points := points_to_check b sample_points in
  let hits := track_hits binary_image points in
  match points with
  | [] => Some false
  | _ =>
      hit_ratio ←
        Py.truediv (inject_Z (Z.of_nat hits))
          (inject_Z (Z.of_nat (length points)));
      Some (Qle_bool min_hit_ratio hit_ratio)
  end.

End Tracer.

(** ** app/services/schematic_builder.py *)

Module SchematicBuilder.
Import Tracer.

(** *** The part of [networkx.Graph] the module uses

    An undirected graph keeps a dict of node attributes and, for every
    node, the dict of its neighbours (edge attributes are not used
    here, so the neighbour dict is a set). *)
Record node_attrs : Type := NodeAttrs {
  component_type : option string;
  node_bbox : option bbox;
}.

Record nx_graph : Type := NxGraph {
  _node : gmap string node_attrs;
  _adj : gmap string (gset string);
}.

Definition nx_empty : nx_graph := NxGraph ∅ ∅.

(** [G.add_node(n, component_type=t, bbox=b)]: a new node gets an empty
    neighbour dict; the attributes of an existing node are updated. *)
Definition add_node (n : string) (t : string) (b : bbox) (G : nx_graph)
    : nx_graph :=
  {| _node := <[n := NodeAttrs (Some t) (Some b)]> (_node G);
     _adj := match _adj G !! n with
             | Some _ => _adj G
             | None => <[n := ∅]> (_adj G)
             end |}.

(** A node that [add_edge] meets for the first time is created without
    attributes. *)
Definition touch_node (n : string) (G : nx_graph) : nx_graph :=
  match _node G !! n with
  | Some _ => G
  | None => {| _node := <[n := NodeAttrs None None]> (_node G);
               _adj := <[n := ∅]> (_adj G) |}
  end.

(** [G.add_edge(u, v)] *)
Definition add_edge (u v : string) (G : nx_graph) : nx_graph :=
  let G := touch_node v (touch_node u G) in
  let adj := <[u := {[v]} ∪ default ∅ (_adj G !! u)]> (_adj G) in
  let adj := <[v := {[u]} ∪ default ∅ (adj !! v)]> adj in
  {| _node := _node G; _adj := adj |}.

(** [G.edges]: every undirected edge once, as the set of its ends. *)
Definition edges (G : nx_graph) : gset (gset string) :=
  map_fold (λ u nbrs acc,
              set_fold (λ v acc, {[ ({[u; v]} : gset string) ]} ∪ acc)
                acc nbrs)
    ∅ (_adj G).

(** *** CircuitGraph *)

Record component : Type := Component {
  id : string;
  type : string;
  comp_bbox : bbox;
}.

Record CircuitGraph : Type := MkCircuitGraph {
  graph : nx_graph;
  components : list component;
  connections : list string;
}.

(** [CircuitGraph()] *)
Definition new_graph : CircuitGraph := MkCircuitGraph nx_empty [] [].

(** A method call either returns the updated object or raises
    ([None]). *)
Definition add_component (component_id component_type : string)
    (b : bbox) (self : CircuitGraph) : option CircuitGraph :=
  Some {| graph := add_node component_id component_type b (graph self);
          components :=
            components self ++ [Component component_id component_type b];
          connections := connections self |}.

Definition connection_str (component1_id component2_id : string)
    : string :=
  component1_id +:+ " -- " +:+ component2_id.

Definition add_connection (component1_id component2_id : string)
    (self : CircuitGraph) : option CircuitGraph :=
  if decide (component1_id ≠ component2_id) then
    let g := add_edge component1_id component2_id (graph self) in
    let s := connection_str component1_id component2_id in
    Some {| graph := g;
            components := components self;
            connections :=
              if decide (s ∉ connections self)
              then connections self ++ [s]
              else connections self |}
  else Some self.

Definition get_netlist (self : CircuitGraph) : list string :=
  connections self.

(** *** Connectivity *)

(** The region of interest of [check_track_continuity]: the rectangle
    spanned by the two (truncated) centres, widened by the margin and
    cut by [max]/[min] to the image. *)
Definition continuity_roi (bbox1 bbox2 : bbox) (binary_image : image)
    : image :=
  let x1 := Py.int (bx bbox1) in
  let y1 := Py.int (by_ bbox1) in
  let x2 := Py.int (bx bbox2) in
  let y2 := Py.int (by_ bbox2) in
  let margin := 25%Z in
  let roi_x1 := Z.max 0 (Z.min x1 x2 - margin) in
  let roi_y1 := Z.max 0 (Z.min y1 y2 - margin) in
  let roi_x2 := Z.min (shape1 binary_image) (Z.max x1 x2 + margin) in
  let roi_y2 := Z.min (shape0 binary_image) (Z.max y1 y2 + margin) in
  slice2 roi_y1 roi_y2 roi_x1 roi_x2 binary_image.

Definition check_track_continuity (bbox1 bbox2 : bbox)
    (binary_image : image) : option bool :=
  let roi := continuity_roi bbox1 bbox2 binary_image in
  if decide (np_size roi = 0) then Some false
  else
    let white_pixels := length (white roi) in
    let total_pixels := np_size roi in
    track_percentage ←
      Py.truediv (inject_Z (Z.of_nat white_pixels))
        (inject_Z (Z.of_nat total_pixels));
    let threshold := 0.40%Q in
    Some (Py.Qlt_bool threshold track_percentage).

Definition are_components_connected (comp1 comp2 : component)
    (binary_image : image) : option bool :=
  comp1_has_track ←
    check_track_component_overlap binary_image (comp_bbox comp1) 12 0.35;
  comp2_has_track ←
    check_track_component_overlap binary_image (comp_bbox comp2) 12 0.35;
  if negb (comp1_has_track && comp2_has_track) then Some false
  else
    let x1 := bx (comp_bbox comp1) in
    let y1 := by_ (comp_bbox comp1) in
    let x2 := bx (comp_bbox comp2) in
    let y2 := by_ (comp_bbox comp2) in
    let max_connection_distance := 140%Q in
    if Py.sqrt_lt ((x2 - x1) ^ 2 + (y2 - y1) ^ 2) max_connection_distance
    then check_track_continuity (comp_bbox comp1) (comp_bbox comp2)
           binary_image
    else Some false.

End SchematicBuilder.

(** ** app/services/ocr_service.py *)

Module OcrService.

(** [s.lower()] on the ASCII letters. *)
Definition lower_ascii (c : ascii) : ascii :=
  let n := nat_of_ascii c in
  if (65 <=? n)%nat && (n <=? 90)%nat then ascii_of_nat (n + 32) else c.

Fixpoint lower (s : string) : string :=
  match s with
  | EmptyString => EmptyString
  | String c s' => String (lower_ascii c) (lower s')
  end.

(** [sub in s] *)
Fixpoint contains (sub s : string) : bool :=
  String.prefix sub s
  || match s with
     | EmptyString => false
     | String _ s' => contains sub s'
     end.

(** The module-level dict of counters, as the module creates it. *)
Definition component_counters : gmap string nat :=
  list_to_map
    [("resistor", 0); ("capacitor", 0); ("ic", 0); ("diode", 0);
     ("led", 0); ("transistor", 0); ("unknown", 0)]%string.

(** [component_counters[key] += 1; return f"{prefix}{component_counters[key]}"];
    reading a missing key raises [KeyError]. *)
Definition bump (key prefix : string) (counters : gmap string nat)
    : option (string * gmap string nat) :=
  n ← counters !! key;
  let counters := <[key := S n]> counters in
  n' ← counters !! key;
  Some (prefix +:+ pretty n', counters).

(** The counter and the prefix that a class name selects: the chain of
    [if]/[elif] tests, in its order. *)
Definition classify (class_name : string) : string * string :=
  let class_lower := lower class_name in
  if contains "resistor" class_lower then ("resistor", "R")
  else if contains "capacitor" class_lower then ("capacitor", "C")
  else if contains "ic" class_lower || contains "chip" class_lower
          || contains "integrated" class_lower then ("ic", "U")
  else if contains "diode" class_lower then ("diode", "D")
  else if contains "led" class_lower then ("led", "LED")
  else if contains "transistor" class_lower then ("transistor", "Q")
  else ("unknown", "X").

Definition get_generic_id (class_name : string)
    (counters : gmap string nat) : option (string * gmap string nat) :=
  let '(key, prefix) := classify class_name in
  bump key prefix counters.

(** [for key in component_counters: component_counters[key] = 0] *)
Definition reset_counters (counters : gmap string nat)
    : gmap string nat :=
  (λ _, 0) <$> counters.

(** A run of calls of [get_generic_id], one per class name, threading
    the counters; the identifiers are collected in call order. *)
Fixpoint get_generic_ids (class_names : list string)
    (counters : gmap string nat) : option (list string * gmap string nat) :=
  match class_names with
  | [] => Some ([], counters)
  | c :: cs =>
      '(i, counters) ← get_generic_id c counters;
      '(ids, counters) ← get_generic_ids cs counters;
      Some (i :: ids, counters)
  end.

(** The states of the counters that the program can be in: the initial
    dict, and whatever the two functions that write it make of it. *)
Inductive reachable : gmap string nat → Prop :=
| reachable_init : reachable component_counters
| reachable_reset counters :
    reachable counters → reachable (reset_counters counters)
| reachable_get class_name counters i counters' :
    reachable counters →
    get_generic_id class_name counters = Some (i, counters') →
    reachable counters'.

End OcrService.

(** ** app/services/detector.py: slicing, parsing and filtering *)

Module Slicing.
Import Detector Tracer.

Definition SLICE_SIZE : Z := 640.
Definition OVERLAP_RATIO : Q := 0.2.

(** [range(0, stop, step)] for a positive step. *)
Definition range (stop step : Z) : list Z :=
  (λ k, Z.of_nat k * step)%Z
    <$> seq 0 (Z.to_nat (Py.floordiv (stop + step - 1) step)).

(** [tile_box = (left, top, right, bottom)] *)
Record tile : Type := Tile {
  t_left : Z; t_top : Z; t_right : Z; t_bottom : Z;
}.

(** [step = int(SLICE_SIZE * (1.0 - OVERLAP_RATIO))], with the fallback to
    no overlap. *)
Definition slice_step (slice_size : Z) (overlap_ratio : Q) : Z :=
  let step := Py.int (inject_Z slice_size * (1 - overlap_ratio))%Q in
  if (step <=? 0)%Z then slice_size else step.

(** The inner loop, over the values of [left], for one value of [top].
    The body may move [left] and [top] back at the edge of the image;
    [left] is set anew by the loop, [top] keeps its new value for the
    rest of the row. *)
Fixpoint row_tiles (slice_size img_width img_height : Z) (top : Z)
    (lefts : list Z) : list tile :=
  match lefts with
  | [] => []
  | left0 :: lefts' =>
      let left := left0 in
      let right := Z.min (left + slice_size) img_width in
      let bottom := Z.min (top + slice_size) img_height in
      let left :=
        if ((right - left <? slice_size) && (slice_size <? img_width))%Z
        then Z.max 0 (right - slice_size) else left in
      let top :=
        if ((bottom - top <? slice_size) && (slice_size <? img_height))%Z
        then Z.max 0 (bottom - slice_size) else top in
      Tile left top right bottom
      :: row_tiles slice_size img_width img_height top lefts'
  end.

(** The tiles in the order of the two loops. *)
Definition tile_boxes (slice_size step img_width img_height : Z)
    : list tile :=
  concat
    ((λ top, row_tiles slice_size img_width img_height top
               (range img_width step))
       <$> range img_height step).

Section Detect.
(** The step of the loop body that yields the predictions of a tile:
    the crop of the tile from the image, the temporary file, the saving
    of the crop as JPEG, the call of the inference service on the file
    and the removal of the file.  The step returns the value of
    [tile_result.get("predictions", [])], or one of its parts raises
    ([None]); nothing in the loop catches the exception.  For the whole
    image the step is the call of the service alone. *)
Context (tile_step : tile → option (list prediction)).
Context (image_step : option (list prediction)).

(** The loop over the tiles: the predictions of each tile are merged
    into the list; an exception of the step on a tile ends the loop. *)
Fixpoint merge_tiles (tiles : list tile) (merged_predictions : list prediction)
    : option (list prediction) :=
  match tiles with
  | [] => Some merged_predictions
  | t :: tiles' =>
      tile_result ← tile_step t;
      merge_tiles tiles'
        (merge_tile (t_left t) (t_top t) tile_result merged_predictions)
  end.

(** [detect_components], from the point where the image is open and has
    the given size: the value of [result["predictions"]], or an
    exception. *)
Definition detect_components (img_width img_height : Z) (use_slicing : bool)
    : option (list prediction) :=
  let should_slice :=
    use_slicing && ((800 <? img_width) || (800 <? img_height))%Z in
  if should_slice then
    let step := slice_step SLICE_SIZE OVERLAP_RATIO in
    merged_predictions ←
      merge_tiles (tile_boxes SLICE_SIZE step img_width img_height) [];
    _non_max_suppression merged_predictions IOU_THRESHOLD
      CONFIDENCE_THRESHOLD
  else
    raw_predictions ← image_step;
    _non_max_suppression raw_predictions IOU_THRESHOLD CONFIDENCE_THRESHOLD.
End Detect.

(** A parsed component: [class_name], [confidence], [bbox]. *)
Record detected : Type := Detected {
  class_name : string;
  det_confidence : Q;
  det_bbox : bbox;
}.

Definition parse_detections (predictions : list prediction)
    : list detected :=
  (λ pred,
     {| class_name := default "Unknown"%string (p_class pred);
        det_confidence := default 0%Q (p_confidence pred);
        det_bbox := BBox (default 0%Q (p_x pred)) (default 0%Q (p_y pred))
                      (default 0%Q (p_width pred))
                      (default 0%Q (p_height pred)) |})
    <$> predictions.

Definition filter_low_confidence (components : list detected)
    (threshold : Q) : list detected :=
  List.filter (λ comp, Qle_bool threshold (det_confidence comp)) components.

End Slicing.

(** ** app/services/schematic_builder.py: build_circuit_graph *)

Module Builder.
Import Tracer SchematicBuilder.

(** [for comp in components: graph.add_component(...)] *)
Fixpoint add_components (components : list component) (g : CircuitGraph)
    : option CircuitGraph :=
  match components with
  | [] => Some g
  | comp :: components' =>
      g ← add_component (id comp) (type comp) (comp_bbox comp) g;
      add_components components' g
  end.

(** The inner loop [for j, comp2 in enumerate(components)], from the
    index [j] on, for the component [comp1] of index [i]. *)
Fixpoint connect_row (binary_image : image) (i : nat) (comp1 : component)
    (j : nat) (components : list component) (g : CircuitGraph)
    : option CircuitGraph :=
  match components with
  | [] => Some g
  | comp2 :: components' =>
      if (j <=? i)%nat
      then connect_row binary_image i comp1 (S j) components' g
      else
        connected ← are_components_connected comp1 comp2 binary_image;
        g ← (if connected : bool
             then add_connection (id comp1) (id comp2) g
             else Some g);
        connect_row binary_image i comp1 (S j) components' g
  end.

(** The outer loop [for i, comp1 in enumerate(components)], from the
    index [i] on; [all] is the whole list. *)
Fixpoint connect_rows (binary_image : image) (all : list component)
    (i : nat) (components : list component) (g : CircuitGraph)
    : option CircuitGraph :=
  match components with
  | [] => Some g
  | comp1 :: components' =>
      g ← connect_row binary_image i comp1 0 all g;
      connect_rows binary_image all (S i) components' g
  end.

Definition build_circuit_graph (components : list component)
    (binary_image : image) : option CircuitGraph :=
  g ← add_components components new_graph;
  connect_rows binary_image components 0 components g.

Definition get_component_list (self : CircuitGraph) : list component :=
  components self.

End Builder.

(** ** app/services/ocr_service.py: naming with OCR *)

Module OcrNaming.
Import Tracer OcrService Slicing.

Definition should_run_ocr (class_name : string) : bool :=
  let class_lower := lower class_name in
  let ocr_components :=
    ["ic"; "chip"; "integrated"; "circuit"; "diode"; "led";
     "transistor"]%string in
  let no_ocr_components := ["resistor"; "capacitor"; "smd"]%string in
  if existsb (λ comp_type, contains comp_type class_lower) ocr_components
  then true
  else if existsb (λ comp_type, contains comp_type class_lower)
            no_ocr_components
  then false
  else true.

Section Name.
(** The two collaborators of [get_component_name] on the box of a
    component: cropping the image may raise ([None]); on the crop,
    [run_ocr_on_crop] returns the text it read, or [None]. *)
Context (ocr : bbox → option (option string)).

Definition get_component_name (component : detected)
    (counters : gmap string nat) : option (string * gmap string nat) :=
  let class_name := class_name component in
  let bbox := det_bbox component in
  if should_run_ocr class_name then
    match ocr bbox with
    | Some (Some ocr_result) =>
        (* [if ocr_result:] an empty text counts as no text *)
        if decide (ocr_result ≠ ""%string) then Some (ocr_result, counters)
        else get_generic_id class_name counters
    | Some None => get_generic_id class_name counters
    | None => get_generic_id class_name counters
    end
  else get_generic_id class_name counters.

(** The naming loop of the [/analyze] endpoint (app/main.py): one named
    component per detected component. *)
Fixpoint name_components (detected_components : list detected)
    (counters : gmap string nat)
    : option (list SchematicBuilder.component * gmap string nat) :=
  match detected_components with
  | [] => Some ([], counters)
  | comp :: rest =>
      '(component_name, counters) ← get_component_name comp counters;
      '(components_with_names, counters) ← name_components rest counters;
      Some (SchematicBuilder.Component component_name (class_name comp)
              (det_bbox comp) :: components_with_names,
            counters)
  end.
End Name.

End OcrNaming.

(** ** app/utils/image_processing.py: crop_image *)

Module ImageProcessing.
Import Tracer.

(** [crop_image], on an image stored by rows of pixels;
    [crop_component_image] of the OCR service computes the same crop. *)
Definition crop_image {A : Type} (image : list (list A)) (b : bbox)
    : list (list A) :=
  let shape0 := Z.of_nat (length image) in
  let shape1 := match image with
                | [] => 0%Z
                | row :: _ => Z.of_nat (length row)
                end in
  let x_center := Py.int (bx b) in
  let y_center := Py.int (by_ b) in
  let width := Py.int (bwidth b) in
  let height := Py.int (bheight b) in
  let x1 := Z.max 0 (x_center - Py.floordiv width 2) in
  let y1 := Z.max 0 (y_center - Py.floordiv height 2) in
  let x2 := Z.min shape1 (x_center + Py.floordiv width 2) in
  let y2 := Z.min shape0 (y_center + Py.floordiv height 2) in
  Py.slice x1 x2 <$> Py.slice y1 y2 image.

End ImageProcessing.

Import Detector Tracer SchematicBuilder OcrService.
Import Slicing Builder OcrNaming ImageProcessing.

(** * Notions used in the statements *)

Section Notions.
Implicit Types a b c d : prediction.

Definition width_of a : Q := get_float (p_width a).
Definition height_of a : Q := get_float (p_height a).
Definition area a : Q := (width_of a * height_of a)%Q.




(** The same two notions on the corners that the code computes. *)
Definition inside_corners a (px py : Q) : Prop :=
  let c := _bbox_to_corners a in
  (x1 c < px ∧ px < x2 c ∧ y1 c < py ∧ py < y2 c)%Q.

Definition overlap_corners a b : Prop :=
  ∃ px py, inside_corners a px py ∧ inside_corners b px py.

(** Intersection and union of two boxes, as the code computes them. *)
Definition intersection_area a b : Q :=
  let b1 := _bbox_to_corners a in
  let b2 := _bbox_to_corners b in
  ((Qmin (x2 b1) (x2 b2) - Qmax (x1 b1) (x1 b2))
   * (Qmin (y2 b1) (y2 b2) - Qmax (y1 b1) (y1 b2)))%Q.

Definition union_area a b : Q :=
  (area a + area b - intersection_area a b)%Q.


(** The IoU as a number; [_compute_iou] never raises
    ([compute_iou_total]), the default is not used. *)
Definition iou a b : Q := default 0%Q (_compute_iou a b).

(** Sample boxes and detections for the examples: three detections of
    one resistor, with confidences 0.9, 0.6 and 0.4. *)
Definition box (x y w h : Q) : prediction :=
  Prediction None None (Some x) (Some y) (Some w) (Some h).

Definition detection (conf x y w h : Q) : prediction :=
  Prediction (Some "Resistor"%string) (Some conf)
    (Some x) (Some y) (Some w) (Some h).

Definition det09 : prediction := detection 0.9 10 10 4 4.
Definition det06 : prediction := detection 0.6 11 10 4 4.
Definition det04 : prediction := detection 0.4 10.5 10 4 4.

End Notions.

(** Order and stability of a descending sort by a rational key. *)
Section SortNotions.
Context {A : Type} (key : A → Q).

(** [a] may stand before [b] in a list sorted by descending key. *)
Definition desc (a b : A) : Prop := (key b <= key a)%Q.

(** The elements whose key has the value [q], in list order. *)
Definition with_key (q : Q) (l : list A) : list A :=
  List.filter (λ x, Qeq_bool (key x) q) l.

(** [s] is the stable descending sort of [l]: it is sorted, and for
    every key value it has the same elements as [l] in the same order
    (so it is a permutation of [l] in which ties keep their original
    order). *)
Definition stable_desc_sort (l s : list A) : Prop :=
  StronglySorted desc s ∧ ∀ q, with_key q s = with_key q l.
End SortNotions.

(** The suppression in the words of the specification. *)
Section WalkNotions.
Implicit Types c d : prediction.

(** The detections that pass the confidence threshold. *)
Definition survivors (t_conf : Q) (P : list prediction) : list prediction :=
  List.filter (λ p, Qle_bool t_conf (confidence p)) P.

(** The greedy walk, one candidate at a time: [greedy_walk t s k] says
    that walking the list [s] accepts exactly the list [k].  A candidate
    is accepted when its IoU against every detection accepted before it
    is strictly below the threshold, and discarded otherwise. *)
Inductive greedy_walk (t_iou : Q)
    : list prediction → list prediction → Prop :=
| walk_done : greedy_walk t_iou [] []
| walk_accept s k c :
    greedy_walk t_iou s k →
    (∀ d, d ∈ k → (iou c d < t_iou)%Q) →
    greedy_walk t_iou (s ++ [c]) (k ++ [c])
| walk_discard s k c d :
    greedy_walk t_iou s k →
    d ∈ k → (t_iou <= iou c d)%Q →
    greedy_walk t_iou (s ++ [c]) k.

(** The two loops of the code as pure functions. *)
Definition duplicate (t_iou : Q) c (kept : list prediction) : bool :=
  existsb (λ kp, Qle_bool t_iou (iou c kp)) kept.

Definition step (t_iou : Q) (kept : list prediction) c : list prediction :=
  if duplicate t_iou c kept then kept else kept ++ [c].

Definition walk (t_iou : Q) (s kept : list prediction) : list prediction :=
  fold_left (step t_iou) s kept.
End WalkNotions.

(** Sample data for the circuit graph. *)
Section GraphNotions.
Definition sample_bbox : bbox := BBox 120 80 30 12.

(** The graph after [add_component("R1", "Resistor", bbox)]. *)
Definition graph_R1 : CircuitGraph :=
  default new_graph (add_component "R1" "Resistor" sample_bbox new_graph).

(** The identifiers that are nodes of the graph. *)
Definition nodes (g : CircuitGraph) : gset string := dom (_node (graph g)).
End GraphNotions.

(** The three measurements of the connectivity test. *)
Section ConnectivityNotions.
(** The share of the 48 perimeter sample points (12 on each edge) that
    have a track pixel in their neighbourhood (margin 5). *)
Definition hit_ratio (binary_image : image) (b : bbox) : Q :=
  (inject_Z (Z.of_nat (track_hits binary_image (points_to_check b 12)))
   / inject_Z (Z.of_nat (length (points_to_check b 12))))%Q.

(** The Euclidean distance between the centres of two boxes. *)
Definition centre_distance (b1 b2 : bbox) : R :=
  sqrt (Q2R ((bx b2 - bx b1) ^ 2 + (by_ b2 - by_ b1) ^ 2)).

(** The share of track pixels in the region of interest between two
    boxes; there is none when the region is empty. *)
Definition track_fraction (b1 b2 : bbox) (binary_image : image)
    : option Q :=
  let roi := continuity_roi b1 b2 binary_image in
  if decide (np_size roi = 0) then None
  else Some (inject_Z (Z.of_nat (length (white roi)))
             / inject_Z (Z.of_nat (np_size roi)))%Q.

(** The elements of a list at the positions from [lo] up to, and
    without, [hi]. *)
Definition window {A : Type} (lo hi : nat) (l : list A) : list A :=
  take (hi - lo) (drop lo l).

(** A track pixel of the image lies in the square of the margin 5 around
    the point [(x, y)]: in the rows [y - 5 .. y + 4] and the columns
    [x - 5 .. x + 4]. *)
Definition track_near (binary_image : image) (x y : Z) : Prop :=
  ∃ (i j : nat) (row : list Z) (v : Z),
    binary_image !! i = Some row ∧ row !! j = Some v
    ∧ (y - 5 <= Z.of_nat i < y + 5)%Z ∧ (x - 5 <= Z.of_nat j < x + 5)%Z
    ∧ (Z.of_nat j < shape1 binary_image)%Z ∧ (127 < v)%Z.

(** Sample data: a board of 200 by 100 pixels that is all track, and
    components on it. *)
Definition all_track : image := replicate 100 (replicate 200 255%Z).
Definition comp_at (name : string) (x y : Q) : component :=
  Component name "Resistor" (BBox x y 10 10).
End ConnectivityNotions.

(** The counters and the prefixes of the generated identifiers. *)
Section NamingNotions.
Definition prefix_table : list (string * string) :=
  [("resistor", "R"); ("capacitor", "C"); ("ic", "U"); ("diode", "D");
   ("led", "LED"); ("transistor", "Q"); ("unknown", "X")]%string.

(** Every counter of the table exists in the dict. *)
Definition has_counters (counters : gmap string nat) : Prop :=
  ∀ key prefix, (key, prefix) ∈ prefix_table → is_Some (counters !! key).

(** An identifier was generated after the counters were in the given
    state: it is a prefix of the table followed by a number above the
    value its counter had. *)
Definition issued_after (counters : gmap string nat) (i : string) : Prop :=
  ∃ key prefix n m,
    (key, prefix) ∈ prefix_table ∧ counters !! key = Some n
    ∧ n < m ∧ i = prefix +:+ pretty m.
End NamingNotions.

(** Notions for the further properties of the suppression. *)
Section SuppressionNotions.
(** No two detections of the list have the same confidence. *)
Definition distinct_confidences (P : list prediction) : Prop :=
  ∀ q, length (with_key confidence q P) ≤ 1.

(** Each detection of the list is below the IoU threshold against every
    detection that stands before it. *)
Definition pairwise_below (t_iou : Q) (k : list prediction) : Prop :=
  ∀ i j a b, i < j → k !! i = Some a → k !! j = Some b → (iou b a < t_iou)%Q.
End SuppressionNotions.

(** Boards without a track. *)
Section MaskNotions.
(** No pixel of the mask counts as track: none is above 127. *)
Definition no_track (binary_image : image) : Prop :=
  ∀ row v, row ∈ binary_image → v ∈ row → (v <= 127)%Z.

(** Sample data: a board of 200 by 100 pixels without any track. *)
Definition bare_board : image := replicate 100 (replicate 200 0%Z).
End MaskNotions.

(** Counting the class names of a run of the naming. *)
Section NumberingNotions.
(** The counter and the prefix that a class name selects. *)
Definition key_of (class_name : string) : string := (classify class_name).1.
Definition prefix_of (class_name : string) : string :=
  (classify class_name).2.

(** The number of class names of the list that select the counter. *)
Definition occurrences (key : string) (class_names : list string) : nat :=
  length (List.filter (λ c, bool_decide (key_of c = key)) class_names).
End NumberingNotions.

(** The graphs that the methods of [CircuitGraph] build. *)
Section BuiltNotions.
(** [v] is a neighbour of [u] in the networkx graph. *)
Definition adjacent (G : nx_graph) (u v : string) : Prop :=
  v ∈ default ∅ (_adj G !! u).

(** Every node has its dict of neighbours, and only nodes have one. *)
Definition well_formed (G : nx_graph) : Prop :=
  ∀ n, is_Some (_adj G !! n) ↔ is_Some (_node G !! n).

(** The objects that calls of the two methods make of a new one. *)
Inductive built : CircuitGraph → Prop :=
| built_new : built new_graph
| built_component g g' component_id component_type b :
    built g →
    add_component component_id component_type b g = Some g' →
    built g'
| built_connection g g' a b :
    built g → add_connection a b g = Some g' → built g'.

(** The two records of the connections agree with each other, and with
    the list of components. *)
Record consistent (g : CircuitGraph) : Prop := Consistent {
  adjacency_of_nodes :
    ∀ n, is_Some (_adj (graph g) !! n) ↔ is_Some (_node (graph g) !! n);
  adjacent_sym : ∀ u v, adjacent (graph g) u v → adjacent (graph g) v u;
  adjacent_irrefl : ∀ u, ¬ adjacent (graph g) u u;
  adjacent_nodes : ∀ u v, adjacent (graph g) u v → u ∈ nodes g;
  components_nodes : ∀ c, c ∈ components g → id c ∈ nodes g;
  netlist_NoDup : NoDup (connections g);
  netlist_adjacent :
    ∀ s, s ∈ connections g →
         ∃ a b, s = connection_str a b ∧ a ≠ b ∧ adjacent (graph g) a b;
  adjacent_netlist :
    ∀ u v, adjacent (graph g) u v →
           connection_str u v ∈ connections g
           ∨ connection_str v u ∈ connections g;
}.

(** A line of the netlist that a list of components and a track mask
    call for: the identifiers of two components, the earlier of the
    list first, that the connectivity test accepts and whose identifiers
    differ. *)
Definition linked (binary_image : image) (comps : list component)
    (s : string) : Prop :=
  ∃ i j c1 c2,
    i < j ∧ comps !! i = Some c1 ∧ comps !! j = Some c2
    ∧ id c1 ≠ id c2
    ∧ are_components_connected c1 c2 binary_image = Some true
    ∧ s = connection_str (id c1) (id c2).

(** The identifiers of a list of components. *)
Definition component_ids (comps : list component) : gset string :=
  list_to_set (id <$> comps).
End BuiltNotions.

(** The tiles of the sliced detection. *)
Section TileNotions.
(** A pixel of a tile: the crop of [tile_box] takes the columns from
    [left] up to, not including, [right], and the rows likewise. *)
Definition in_tile (t : tile) (x y : Z) : Prop :=
  (t_left t <= x < t_right t ∧ t_top t <= y < t_bottom t)%Z.

(** The start of a tile along one axis, after the adjustment at the edge
    of the image. *)
Definition tile_start (slice_size extent start : Z) : Z :=
  let stop := Z.min (start + slice_size) extent in
  if ((stop - start <? slice_size) && (slice_size <? extent))%Z
  then Z.max 0 (stop - slice_size) else start.

(** The tile for the values [top] and [left] of the two loops. *)
Definition tile_at (slice_size img_width img_height top left : Z) : tile :=
  Tile (tile_start slice_size img_width left)
    (tile_start slice_size img_height top)
    (Z.min (left + slice_size) img_width)
    (Z.min (top + slice_size) img_height).
End TileNotions.

(** The naming of the detected components. *)
Section NameNotions.
(** The OCR gives no name for the component: it is not attempted for
    the class, the crop raises, or no text or an empty text is read. *)
Definition no_text (ocr : bbox → option (option string)) (comp : detected)
    : Prop :=
  should_run_ocr (class_name comp) = false
  ∨ ocr (det_bbox comp) = None
  ∨ ocr (det_bbox comp) = Some None
  ∨ ocr (det_bbox comp) = Some (Some ""%string).

(** Sample data: a detection of the given class. *)
Definition detected_at (class_name : string) (x y : Q) : detected :=
  Detected class_name 0.9 (BBox x y 10 10).
End NameNotions.

(** The measurements of the connectivity test, on the pixels of the
    mask. *)
Section PixelNotions.
(** The value of the mask at column [x] and row [y]; outside the image
    there is none. *)
Definition pixel (binary_image : image) (x y : Z) : option Z :=
  if ((x <? 0) || (y <? 0))%Z then None
  else row ← binary_image !! Z.to_nat y; row !! Z.to_nat x.

(** The values of the pixels that the image has in the columns from
    [xa] up to, and without, [xb] and the rows from [ya] up to, and
    without, [yb]: the rectangle, clipped to the image. *)
Definition pixels_in (binary_image : image) (xa xb ya yb : Z) : list Z :=
  y ← seqZ ya (yb - ya);
  x ← seqZ xa (xb - xa);
  option_list (pixel binary_image x y).

(** The point has a track pixel (a value above 127) in its
    neighbourhood of margin 5: the square of 10 by 10 pixels from 5
    before the point up to 4 after it, as far as it lies in the image. *)
Definition touches (binary_image : image) (p : Z * Z) : bool :=
  existsb (λ v, 127 <? v)%Z
    (pixels_in binary_image (p.1 - 5) (p.1 + 5) (p.2 - 5) (p.2 + 5)).

(** [n] points from [a] towards [b]: the point [i] is [i / n] of the way,
    rounded down. *)
Definition edge_points (a b : Z) (n : nat) : list Z :=
  (λ i : nat, a + Z.div ((b - a) * Z.of_nat i) (Z.of_nat n))%Z <$> seq 0 n.

(** The sample points on the perimeter of a box, [n] on each edge.  The
    box extends half its (truncated) width and height, rounded down,
    from its (truncated) centre. *)
Definition perimeter_samples (b : bbox) (n : nat) : list (Z * Z) :=
  let x_lo := (Py.int (bx b) - Z.div (Py.int (bwidth b)) 2)%Z in
  let x_hi := (Py.int (bx b) + Z.div (Py.int (bwidth b)) 2)%Z in
  let y_lo := (Py.int (by_ b) - Z.div (Py.int (bheight b)) 2)%Z in
  let y_hi := (Py.int (by_ b) + Z.div (Py.int (bheight b)) 2)%Z in
  ((λ x, (x, y_lo)) <$> edge_points x_lo x_hi n)
  ++ ((λ x, (x, y_hi)) <$> edge_points x_lo x_hi n)
  ++ ((λ y, (x_lo, y)) <$> edge_points y_lo y_hi n)
  ++ ((λ y, (x_hi, y)) <$> edge_points y_lo y_hi n).

(** The perimeter hit ratio of a box: the share of its sample points,
    12 on each edge, that touch a track. *)
Definition perimeter_hit_ratio (binary_image : image) (b : bbox) : Q :=
  let samples := perimeter_samples b 12 in
  (inject_Z (Z.of_nat (length (List.filter (touches binary_image) samples)))
   / inject_Z (Z.of_nat (length samples)))%Q.

(** The share of track pixels in the region between two boxes: the
    rectangle spanned by the two (truncated) centres, expanded by 25
    pixels on all sides and clipped to the image.  There is none when
    the region has no pixel. *)
Definition region_track_fraction (b1 b2 : bbox) (binary_image : image)
    : option Q :=
  let x1 := Py.int (bx b1) in
  let y1 := Py.int (by_ b1) in
  let x2 := Py.int (bx b2) in
  let y2 := Py.int (by_ b2) in
  let region :=
    pixels_in binary_image (Z.min x1 x2 - 25) (Z.max x1 x2 + 25)
      (Z.min y1 y2 - 25) (Z.max y1 y2 + 25) in
  if decide (region = []) then None
  else Some (inject_Z (Z.of_nat (length (List.filter (λ v, 127 <? v)%Z
                                           region)))
             / inject_Z (Z.of_nat (length region)))%Q.

(** Every row of the image has the same length. *)
Definition rectangular (binary_image : image) : Prop :=
  ∃ w : nat, ∀ row, row ∈ binary_image → length row = w.

(** No sample point of the box lies more than the margin 5 to the left
    of the image or above it. *)
Definition near_image (b : bbox) : Prop :=
  ∀ p, p ∈ perimeter_samples b 12 → (-5 <= p.1)%Z ∧ (-5 <= p.2)%Z.

(** The two centres do not both lie more than the margin 25 to the left
    of the image, or both above it. *)
Definition centres_near_image (b1 b2 : bbox) : Prop :=
  (-25 <= Z.max (Py.int (bx b1)) (Py.int (bx b2)))%Z
  ∧ (-25 <= Z.max (Py.int (by_ b1)) (Py.int (by_ b2)))%Z.

(** The elements of a list at the positions from [lo] up to, and
    without, [hi], as far as the list has them. *)
Definition lookups {A : Type} (l : list A) (lo hi : Z) : list A :=
  i ← seqZ lo (hi - lo);
  option_list (if (i <? 0)%Z then None else l !! Z.to_nat i).

(** Sample data: a board of 200 by 100 pixels with a band of track in
    the columns 60 to 124; an IC whose box overhangs the left border of
    the board by 20 pixels and has no track within 5 pixels of its
    perimeter; a resistor on the band. *)
Definition track_band : image :=
  replicate 100
    (replicate 60 0%Z ++ replicate 65 255%Z ++ replicate 75 0%Z).
Definition edge_ic : component := Component "U1" "IC" (BBox 10 50 60 40).
Definition band_resistor : component :=
  Component "R1" "Resistor" (BBox 100 50 20 20).
End PixelNotions.

(** * Properties *)

(** ** Rational comparisons *)

Lemma Qlt_bool_iff (a b : Q) : Py.Qlt_bool a b = true ↔ (a < b)%Q.
Proof.
  unfold Py.Qlt_bool. rewrite negb_true_iff, <- not_true_iff_false.
  rewrite Qle_bool_iff. split; [apply Qnot_le_lt | apply Qlt_not_le].
Qed.

Lemma Qlt_bool_false_iff (a b : Q) : Py.Qlt_bool a b = false ↔ (b <= a)%Q.
Proof.
  unfold Py.Qlt_bool. rewrite negb_false_iff. apply Qle_bool_iff.
Qed.

Lemma Qle_bool_false_iff (a b : Q) : Qle_bool a b = false ↔ (b < a)%Q.
Proof.
  rewrite <- not_true_iff_false, Qle_bool_iff.
  split; [apply Qnot_le_lt | apply Qlt_not_le].
Qed.

Lemma truediv_Some (a b : Q) :
  ¬ (b == 0)%Q → Py.truediv a b = Some (a / b)%Q.
Proof.
  intros Hb. unfold Py.truediv.
  destruct (Qeq_bool b 0) eqn:E; [|done].
  by apply Qeq_bool_iff in E.
Qed.

(** Case analysis on the comparisons of a goal or hypothesis. *)
Ltac destruct_Qmax_Qmin :=
  repeat match goal with
  | |- context [Qmax ?x ?y] =>
      let H := fresh "Hmax" in
      destruct (Q.max_spec x y) as [[? H]|[? H]];
      revert H; generalize (Qmax x y); intros ? H
  | |- context [Qmin ?x ?y] =>
      let H := fresh "Hmin" in
      destruct (Q.min_spec x y) as [[? H]|[? H]];
      revert H; generalize (Qmin x y); intros ? H
  end.

(** ** Intersection over union *)

Section IoU.
Implicit Types a b : prediction.

(** The two outcomes of [_compute_iou]: the literal [0.0] of one of the
    early returns, or the quotient, with a positive divisor. *)
Lemma compute_iou_cases a b :
  (_compute_iou a b = Some 0%Q
   ∧ (¬ overlap_corners a b ∨ area a <= 0 ∨ area b <= 0)%Q)
  ∨ ((∃ q, _compute_iou a b = Some q
           ∧ (q == intersection_area a b / union_area a b)%Q)
     ∧ overlap_corners a b
     ∧ (0 < area a ∧ 0 < area b ∧ 0 < intersection_area a b
        ∧ intersection_area a b <= area a
        ∧ intersection_area a b <= area b)%Q).
Proof.
  unfold _compute_iou, overlap_corners, inside_corners, union_area, intersection_area, area,
    width_of, height_of.
  cbn [_bbox_to_corners x1 x2 y1 y2].
  set (xa := get_float (p_x a)). set (ya := get_float (p_y a)).
  set (wa := get_float (p_width a)). set (ha := get_float (p_height a)).
  set (xb := get_float (p_x b)). set (yb := get_float (p_y b)).
  set (wb := get_float (p_width b)). set (hb := get_float (p_height b)).
  clearbody xa ya wa ha xb yb wb hb.
  destruct (Qle_bool (Qmin _ _) (Qmax _ _)) eqn:Ex; cbn [orb].
  { left. split; [done|]. left. intros (px & py & Ha & Hb).
    apply Qle_bool_iff in Ex. revert Ex. destruct_Qmax_Qmin; lra. }
  destruct (Qle_bool (Qmin (ya + _) _) (Qmax _ _)) eqn:Ey.
  { left. split; [done|]. left. intros (px & py & Ha & Hb).
    apply Qle_bool_iff in Ey. revert Ey. destruct_Qmax_Qmin; lra. }
  apply Qle_bool_false_iff in Ex, Ey.
  assert (Ea : ((xa + wa / 2 - (xa - wa / 2)) * (ya + ha / 2 - (ya - ha / 2))
                == wa * ha)%Q) by field.
  assert (Eb : ((xb + wb / 2 - (xb - wb / 2)) * (yb + hb / 2 - (yb - hb / 2))
                == wb * hb)%Q) by field.
  destruct (Qle_bool (_ * _) 0) eqn:E1; cbn [orb].
  { left. split; [done|]. right. left.
    apply Qle_bool_iff in E1. lra. }
  destruct (Qle_bool ((xb + _ - _) * _) 0) eqn:E2.
  { left. split; [done|]. right. right.
    apply Qle_bool_iff in E2. lra. }
  apply Qle_bool_false_iff in E1, E2.
  right.
  pose proof (Q.le_max_l (xa - wa / 2) (xb - wb / 2)) as Hxl1.
  pose proof (Q.le_max_r (xa - wa / 2) (xb - wb / 2)) as Hxl2.
  pose proof (Q.le_min_l (xa + wa / 2) (xb + wb / 2)) as Hxr1.
  pose proof (Q.le_min_r (xa + wa / 2) (xb + wb / 2)) as Hxr2.
  pose proof (Q.le_max_l (ya - ha / 2) (yb - hb / 2)) as Hyt1.
  pose proof (Q.le_max_r (ya - ha / 2) (yb - hb / 2)) as Hyt2.
  pose proof (Q.le_min_l (ya + ha / 2) (yb + hb / 2)) as Hyb1.
  pose proof (Q.le_min_r (ya + ha / 2) (yb + hb / 2)) as Hyb2.
  revert Ex Ey Hxl1 Hxl2 Hxr1 Hxr2 Hyt1 Hyt2 Hyb1 Hyb2.
  generalize (Qmax (xa - wa / 2) (xb - wb / 2)) as xl.
  generalize (Qmin (xa + wa / 2) (xb + wb / 2)) as xr.
  generalize (Qmax (ya - ha / 2) (yb - hb / 2)) as yt.
  generalize (Qmin (ya + ha / 2) (yb + hb / 2)) as yd.
  intros yd yt xr xl Ex Ey Hxl1 Hxl2 Hxr1 Hxr2 Hyt1 Hyt2 Hyb1 Hyb2.
  rewrite Ea in E1. rewrite Eb in E2.
  assert (Hb : (xr - xl <= wa ∧ xr - xl <= wb
                ∧ yd - yt <= ha ∧ yd - yt <= hb)%Q).
  { clear Ea Eb E1 E2.
    assert (Hwa2 : (wa / 2 == wa * (1 # 2))%Q) by field.
    assert (Hwb2 : (wb / 2 == wb * (1 # 2))%Q) by field.
    assert (Hha2 : (ha / 2 == ha * (1 # 2))%Q) by field.
    assert (Hhb2 : (hb / 2 == hb * (1 # 2))%Q) by field.
    revert Hwa2 Hwb2 Hha2 Hhb2 Hxl1 Hxl2 Hxr1 Hxr2 Hyt1 Hyt2 Hyb1 Hyb2.
    generalize (wa / 2)%Q (wb / 2)%Q (ha / 2)%Q (hb / 2)%Q.
    intros wa2 wb2 ha2 hb2 **. lra. }
  destruct Hb as (Hdxa & Hdxb & Hdya & Hdyb).
  assert (Hwa : (0 < wa)%Q) by lra.
  assert (Hwb : (0 < wb)%Q) by lra.
  assert (Hha : (0 < ha)%Q) by lra.
  assert (Hhb : (0 < hb)%Q) by lra.
  assert (Hi : (0 < (xr - xl) * (yd - yt))%Q) by nra.
  assert (Hia : ((xr - xl) * (yd - yt) <= wa * ha)%Q).
  { pose proof (Qmult_le_0_compat (wa - (xr - xl)) ha).
    pose proof (Qmult_le_0_compat (xr - xl) (ha - (yd - yt))). nra. }
  assert (Hib : ((xr - xl) * (yd - yt) <= wb * hb)%Q).
  { pose proof (Qmult_le_0_compat (wb - (xr - xl)) hb).
    pose proof (Qmult_le_0_compat (xr - xl) (hb - (yd - yt))). nra. }
  split; [|split; [|lra]].
  - rewrite truediv_Some by (rewrite Ea, Eb; lra).
    eexists; split; [done|]. by rewrite Ea, Eb.
  - exists ((xl + xr) * (1 # 2))%Q, ((yt + yd) * (1 # 2))%Q. lra.
Qed.

Lemma compute_iou_total a b : ∃ q, _compute_iou a b = Some q.
Proof.
  destruct (compute_iou_cases a b) as [[-> _]|[(q & -> & _) _]]; eauto.
Qed.

Lemma compute_iou_iou a b : _compute_iou a b = Some (iou a b).
Proof.
  unfold iou. by destruct (compute_iou_total a b) as [q ->].
Qed.











End IoU.

(** ** Stable descending sort *)

Section Sort.
Context {A : Type} (key : A → Q).
Implicit Types (x y : A) (l s : list A).

Local Abbreviation insert_desc := (Py.insert_desc key).
Local Abbreviation sort_desc := (Py.sort_desc key).
Local Abbreviation desc := (desc key).

Lemma insert_desc_head x l :
  Forall (desc x) l → insert_desc x l = x :: l.
Proof.
  destruct 1 as [|y l Hy _]; [done|]. cbn.
  by apply Qlt_bool_false_iff in Hy as ->.
Qed.

Lemma insert_desc_elem x y l : y ∈ insert_desc x l ↔ y = x ∨ y ∈ l.
Proof.
  induction l as [|z l IH]; cbn.
  - by rewrite list_elem_of_singleton, elem_of_nil; intuition.
  - destruct (Py.Qlt_bool _ _); rewrite !elem_of_cons, ?IH; intuition.
Qed.

Lemma sort_desc_elem y l : y ∈ sort_desc l ↔ y ∈ l.
Proof.
  induction l as [|x l IH]; cbn; [done|].
  by rewrite insert_desc_elem, elem_of_cons, IH.
Qed.

Lemma insert_desc_sorted x l :
  StronglySorted desc l → StronglySorted desc (insert_desc x l).
Proof.
  induction 1 as [|y l Hl IH Hy]; cbn.
  - by repeat constructor.
  - destruct (Py.Qlt_bool (key x) (key y)) eqn:E.
    + apply Qlt_bool_iff in E. constructor; [done|].
      apply Forall_forall. intros z [->|Hz]%insert_desc_elem.
      * unfold desc. lra.
      * by eapply Forall_forall in Hy.
    + apply Qlt_bool_false_iff in E. constructor.
      * by constructor.
      * constructor; [done|].
        eapply Forall_impl; [done|]. unfold desc. intros z ?. lra.
Qed.

Lemma sort_desc_sorted l : StronglySorted desc (sort_desc l).
Proof.
  induction l; cbn; [constructor|by apply insert_desc_sorted].
Qed.

(** A sorted list is left as it is. *)
Lemma sort_desc_id l : StronglySorted desc l → sort_desc l = l.
Proof.
  induction 1 as [|x l Hl IH Hx]; cbn; [done|].
  rewrite IH. by apply insert_desc_head.
Qed.

Lemma filter_sorted (f : A → bool) l :
  StronglySorted desc l → StronglySorted desc (List.filter f l).
Proof.
  induction 1 as [|x l Hl IH Hx]; cbn; [constructor|].
  destruct (f x); [|done]. constructor; [done|].
  apply Forall_forall. intros y Hy%list_elem_of_In%filter_In.
  eapply Forall_forall in Hx; [done|]. apply list_elem_of_In, Hy.
Qed.

Lemma filter_insert_desc (f : A → bool) x l :
  StronglySorted desc l →
  List.filter f (insert_desc x l)
  = if f x then insert_desc x (List.filter f l) else List.filter f l.
Proof.
  induction 1 as [|y l Hl IH Hy]; cbn.
  - by destruct (f x).
  - destruct (Py.Qlt_bool (key x) (key y)) eqn:E; cbn.
    + rewrite IH. destruct (f x), (f y); cbn; by rewrite ?E.
    + destruct (f x); [|done].
      apply Qlt_bool_false_iff in E.
      change (x :: List.filter f (y :: l)
              = insert_desc x (List.filter f (y :: l))).
      symmetry. apply insert_desc_head, Forall_forall.
      intros z Hz%list_elem_of_In%filter_In. destruct Hz as [Hz _].
      apply list_elem_of_In, elem_of_cons in Hz as [->|Hz]; [done|].
      eapply Forall_forall in Hy; [|done]. unfold desc in *. lra.
Qed.

(** Sorting and filtering commute: the sort is stable. *)
Lemma filter_sort_desc (f : A → bool) l :
  List.filter f (sort_desc l) = sort_desc (List.filter f l).
Proof.
  induction l as [|x l IH]; cbn; [done|].
  rewrite filter_insert_desc by apply sort_desc_sorted.
  rewrite IH. by destruct (f x).
Qed.

Lemma sort_desc_stable l : stable_desc_sort key l (sort_desc l).
Proof.
  split; [apply sort_desc_sorted|]. intros q. unfold with_key.
  rewrite filter_sort_desc. apply sort_desc_id.
  induction l as [|x l IH]; cbn; [constructor|].
  destruct (Qeq_bool (key x) q) eqn:E; [|done].
  constructor; [done|]. apply Forall_forall.
  intros y Hy%list_elem_of_In%filter_In. destruct Hy as [_ Hy].
  apply Qeq_bool_iff in E, Hy. unfold desc. lra.
Qed.

Lemma with_key_elem q x l :
  x ∈ with_key key q l ↔ x ∈ l ∧ (key x == q)%Q.
Proof.
  unfold with_key. by rewrite !list_elem_of_In, filter_In, Qeq_bool_iff.
Qed.

Lemma sorted_same_keys_eq s s' :
  StronglySorted desc s → StronglySorted desc s' →
  (∀ q, with_key key q s = with_key key q s') → s = s'.
Proof.
  intros Hs. revert s'.
  induction Hs as [|x s Hs IH Hx]; intros [|y s'] Hs' H.
  - done.
  - specialize (H (key y)). unfold with_key in H; cbn in H.
    by rewrite Qeq_bool_refl in H.
  - specialize (H (key x)). unfold with_key in H; cbn in H.
    by rewrite Qeq_bool_refl in H.
  - apply StronglySorted_inv in Hs' as [Hs' Hy].
    assert (Hyx : (key y <= key x)%Q).
    { assert (y ∈ with_key key (key y) (x :: s)) as [Hin _]%with_key_elem.
      { rewrite H. apply with_key_elem. split; [left|done]. }
      apply elem_of_cons in Hin as [->|Hin]; [lra|].
      by eapply Forall_forall in Hx. }
    assert (Hxy : (key x <= key y)%Q).
    { assert (x ∈ with_key key (key x) (y :: s')) as [Hin _]%with_key_elem.
      { rewrite <- H. apply with_key_elem. split; [left|done]. }
      apply elem_of_cons in Hin as [->|Hin]; [lra|].
      by eapply Forall_forall in Hy. }
    assert (x = y) as <-.
    { specialize (H (key x)). unfold with_key in H; cbn in H.
      rewrite Qeq_bool_refl in H.
      assert (Qeq_bool (key y) (key x) = true) as E
        by (apply Qeq_bool_iff; lra).
      rewrite E in H. by injection H. }
    f_equal. apply IH; [done|]. intros q. specialize (H q).
    unfold with_key in *; cbn in H.
    destruct (Qeq_bool (key x) q); [by injection H|done].
Qed.

(** The stable descending sort of a list is unique. *)
Lemma stable_desc_sort_unique l s s' :
  stable_desc_sort key l s → stable_desc_sort key l s' → s = s'.
Proof.
  intros [Hs H] [Hs' H']. apply sorted_same_keys_eq; [done..|].
  intros q. by rewrite H, H'.
Qed.

Lemma filter_Permutation_bool (f : A → bool) l1 l2 :
  l1 ≡ₚ l2 → List.filter f l1 ≡ₚ List.filter f l2.
Proof.
  induction 1 as [|x l1 l2 _ IH|x y l|l1 l2 l3 _ IH1 _ IH2]; cbn.
  - done.
  - destruct (f x); by rewrite IH.
  - destruct (f x), (f y); first [done|apply perm_swap].
  - by etrans.
Qed.

Lemma filter_filter_impl (f g : A → bool) l :
  (∀ x, f x = true → g x = true) →
  List.filter f (List.filter g l) = List.filter f l.
Proof.
  intros Hfg. induction l as [|x l IH]; cbn; [done|].
  destruct (g x) eqn:Eg; cbn; rewrite IH; [done|].
  destruct (f x) eqn:Ef; [|done].
  apply Hfg in Ef. congruence.
Qed.

(** In a sorted list the elements above a threshold come first. *)
Lemma filter_threshold_prefix (t : Q) l :
  StronglySorted desc l →
  List.filter (λ x, Qle_bool t (key x)) l `prefix_of` l.
Proof.
  induction 1 as [|x l Hl IH Hx]; cbn; [done|].
  destruct (Qle_bool t (key x)) eqn:E.
  - by apply prefix_cons.
  - replace (List.filter _ l) with (@nil A); [apply prefix_nil|].
    symmetry. apply Qle_bool_false_iff in E.
    clear IH Hl. induction Hx as [|y l Hy _ IH]; cbn; [done|].
    destruct (Qle_bool t (key y)) eqn:E'; [|done].
    apply Qle_bool_iff in E'. unfold desc in Hy. lra.
Qed.
End Sort.

(** ** Non-maximum suppression *)

Section NMS.
Implicit Types (c d : prediction) (s k P : list prediction) (t : Q).

Lemma duplicate_true t c k :
  duplicate t c k = true ↔ ∃ d, d ∈ k ∧ (t <= iou c d)%Q.
Proof.
  unfold duplicate. rewrite existsb_exists.
  split; intros (d & Hd & H); exists d.
  - split; [by apply list_elem_of_In | by apply Qle_bool_iff].
  - split; [by apply list_elem_of_In | by apply Qle_bool_iff].
Qed.

Lemma duplicate_false t c k :
  duplicate t c k = false ↔ ∀ d, d ∈ k → (iou c d < t)%Q.
Proof.
  rewrite <- not_true_iff_false, duplicate_true. split.
  - intros Hn d Hd. apply Qnot_le_lt. intros ?. apply Hn. eauto.
  - intros H (d & Hd & Hle). specialize (H d Hd). lra.
Qed.

(** The loops never raise, and compute [duplicate] and [walk]. *)
Lemma discarded_duplicate t c k : discarded t c k = Some (duplicate t c k).
Proof.
  induction k as [|kp k IH]; cbn; [done|].
  rewrite compute_iou_iou; cbn.
  by destruct (Qle_bool t (iou c kp)).
Qed.

Lemma suppress_walk t s k : suppress t s k = Some (walk t s k).
Proof.
  revert k. induction s as [|c s IH]; intros k; cbn; [done|].
  rewrite discarded_duplicate; cbn. apply IH.
Qed.

Lemma nms_walk P t_iou t_conf :
  _non_max_suppression P t_iou t_conf
  = Some (walk t_iou (Py.sort_desc confidence (survivors t_conf P)) []).
Proof.
  unfold _non_max_suppression. fold (survivors t_conf P).
  destruct (survivors t_conf P) eqn:E; [done|]. apply suppress_walk.
Qed.

Lemma walk_snoc t s k c : walk t (s ++ [c]) k = step t (walk t s k) c.
Proof. unfold walk. by rewrite fold_left_app. Qed.

Lemma walk_app t s1 s2 k : walk t (s1 ++ s2) k = walk t s2 (walk t s1 k).
Proof. unfold walk. by rewrite fold_left_app. Qed.

Lemma step_prefix t k c : k `prefix_of` step t k c.
Proof.
  unfold step. destruct (duplicate t c k); [done|].
  by apply prefix_app_r.
Qed.

Lemma walk_prefix t s k : k `prefix_of` walk t s k.
Proof.
  revert k. induction s as [|c s IH]; intros k; cbn; [done|].
  etrans; [apply (step_prefix t k c)|apply IH].
Qed.

(** What the walk accepts is taken from the candidates, in their
    order. *)
Lemma walk_sublist t s k : ∃ k', walk t s k = k ++ k' ∧ k' `sublist_of` s.
Proof.
  revert k. induction s as [|c s IH]; intros k.
  - exists []. by rewrite app_nil_r.
  - change (walk t (c :: s) k) with (walk t s (step t k c)).
    destruct (IH (step t k c)) as (k' & -> & Hk'). unfold step.
    destruct (duplicate t c k).
    + exists k'. split; [done|]. by apply sublist_cons.
    + exists (c :: k'). rewrite <- app_assoc. split; [done|].
      by apply sublist_skip.
Qed.

Lemma walk_nil_sublist t s : walk t s [] `sublist_of` s.
Proof. by destruct (walk_sublist t s []) as (k' & -> & Hk'). Qed.

(** The code's walk is a greedy walk in the sense of the specification,
    and the only one. *)
Lemma walk_greedy t s : greedy_walk t s (walk t s []).
Proof.
  induction s as [|c s IH] using rev_ind; [constructor|].
  rewrite walk_snoc. unfold step.
  destruct (duplicate t c (walk t s [])) eqn:E.
  - apply duplicate_true in E as (d & Hd & Hle). by eapply walk_discard.
  - apply walk_accept; [done|]. by apply duplicate_false.
Qed.

Lemma greedy_walk_unique t s k : greedy_walk t s k → k = walk t s [].
Proof.
  induction 1 as [|s k c Hw IH Hlt|s k c d Hw IH Hd Hle].
  - done.
  - rewrite walk_snoc, <- IH. unfold step.
    by apply duplicate_false in Hlt as ->.
  - rewrite walk_snoc, <- IH. unfold step.
    assert (duplicate t c k = true) as -> by (apply duplicate_true; eauto).
    done.
Qed.

(** Re-walking an accepted list accepts all of it. *)
Lemma walk_walk t s : walk t (walk t s []) [] = walk t s [].
Proof.
  induction s as [|c s IH] using rev_ind; [done|].
  rewrite walk_snoc. unfold step at 1 2.
  destruct (duplicate t c (walk t s [])) eqn:E; [done|].
  rewrite walk_snoc, IH. unfold step. by rewrite E.
Qed.

Lemma survivors_elem t_conf P d :
  d ∈ survivors t_conf P ↔ d ∈ P ∧ (t_conf <= confidence d)%Q.
Proof.
  unfold survivors. by rewrite !list_elem_of_In, filter_In, Qle_bool_iff.
Qed.

Lemma survivors_id t_conf P :
  Forall (λ d, t_conf <= confidence d)%Q P → survivors t_conf P = P.
Proof.
  unfold survivors. induction 1 as [|d P Hd _ IH]; cbn; [done|].
  apply Qle_bool_iff in Hd as ->. by rewrite IH.
Qed.

Lemma sublist_sorted {A} (R : relation A) (l1 l2 : list A) :
  l1 `sublist_of` l2 → StronglySorted R l2 → StronglySorted R l1.
Proof.
  induction 1 as [|x l1 l2 Hs IH|x l1 l2 Hs IH]; intros Hl;
    [done|..]; apply StronglySorted_inv in Hl as [Hl Hx].
  - constructor; [by apply IH|].
    apply Forall_forall. intros y Hy.
    eapply Forall_forall in Hx; [done|]. by eapply sublist_subseteq.
  - by apply IH.
Qed.
End NMS.

Section NMSProperties.
Implicit Types (c d : prediction) (s k P : list prediction).

Lemma sort_three d1 d2 d3 P :
  (confidence d3 < confidence d2)%Q → (confidence d2 < confidence d1)%Q →
  P ≡ₚ [d1; d2; d3] → Py.sort_desc confidence P = [d1; d2; d3].
Proof.
  intros H32 H21 HP.
  apply (stable_desc_sort_unique confidence P); [apply sort_desc_stable|].
  split.
  - repeat constructor; unfold desc; lra.
  - intros q. pose proof (filter_Permutation_bool
      (λ x, Qeq_bool (confidence x) q) _ _ HP) as Hq.
    unfold with_key. revert Hq. cbn.
    destruct (Qeq_bool (confidence d1) q) eqn:E1,
      (Qeq_bool (confidence d2) q) eqn:E2,
      (Qeq_bool (confidence d3) q) eqn:E3;
      rewrite ?Qeq_bool_iff in *; try lra; intros Hq;
      first [by apply Permutation_singleton_r in Hq
            |by apply Permutation_nil_r in Hq].
Qed.

Lemma nms_three d1 d2 d3 P t_iou t_conf :
  (confidence d3 < confidence d2)%Q → (confidence d2 < confidence d1)%Q →
  (t_conf <= confidence d3)%Q →
  (t_iou <= iou d2 d1)%Q → (t_iou <= iou d3 d1)%Q →
  P ≡ₚ [d1; d2; d3] →
  _non_max_suppression P t_iou t_conf = Some [d1].
Proof.
  intros H32 H21 Ht H2 H3 HP. rewrite nms_walk. f_equal.
  rewrite survivors_id.
  2:{ rewrite HP. repeat constructor; lra. }
  rewrite (sort_three d1 d2 d3) by done.
  apply Qle_bool_iff in H2, H3.
  unfold walk, step, duplicate; cbn. rewrite H2; cbn. by rewrite H3.
Qed.

(** C2: the result of the suppression is the greedy walk over the
    survivors of the confidence filter, taken in stable descending
    order of confidence: a candidate is kept exactly when its IoU with
    every detection kept before it is strictly below the IoU threshold.
    Detections below the confidence threshold are dropped.  Of three
    detections with confidences 0.9, 0.6 and 0.4 and pairwise IoU above
    the threshold 0.4, only the first is kept. *)
Theorem nms_characterization :
  (∀ P t_iou t_conf, ∃ s k,
      stable_desc_sort confidence (survivors t_conf P) s
      ∧ (∀ s', stable_desc_sort confidence (survivors t_conf P) s' → s' = s)
      ∧ greedy_walk t_iou s k
      ∧ (∀ k', greedy_walk t_iou s k' → k' = k)
      ∧ _non_max_suppression P t_iou t_conf = Some k
      ∧ (∀ d, d ∈ k → d ∈ P ∧ (t_conf <= confidence d)%Q)
      ∧ (∀ d, (confidence d < t_conf)%Q → d ∉ k))
  ∧ (∀ d1 d2 d3 P,
      (confidence d1 == 0.9)%Q → (confidence d2 == 0.6)%Q →
      (confidence d3 == 0.4)%Q →
      (0.4 < iou d2 d1)%Q → (0.4 < iou d3 d1)%Q → (0.4 < iou d3 d2)%Q →
      P ≡ₚ [d1; d2; d3] →
      _non_max_suppression P IOU_THRESHOLD CONFIDENCE_THRESHOLD
      = Some [d1]).
Proof.
  split.
  - intros P t_iou t_conf.
    set (s := Py.sort_desc confidence (survivors t_conf P)).
    assert (Hin : ∀ d, d ∈ walk t_iou s [] →
                       d ∈ P ∧ (t_conf <= confidence d)%Q).
    { intros d Hd. apply survivors_elem, (sort_desc_elem confidence).
      by eapply sublist_subseteq; [apply walk_nil_sublist|]. }
    exists s, (walk t_iou s []). repeat split.
    + apply sort_desc_sorted.
    + apply sort_desc_stable.
    + intros s' Hs'. eapply stable_desc_sort_unique; [done|].
      apply sort_desc_stable.
    + apply walk_greedy.
    + apply greedy_walk_unique.
    + apply nms_walk.
    + by apply Hin.
    + by apply Hin.
    + intros d Hd [_ Hc]%Hin. lra.
  - intros d1 d2 d3 P H1 H2 H3 H21 H31 H32 HP.
    unfold IOU_THRESHOLD, CONFIDENCE_THRESHOLD.
    apply (nms_three d1 d2 d3); [lra..|done].
Qed.

Lemma nms_characterization_witness :
  _non_max_suppression [det04; det09; det06]
    IOU_THRESHOLD CONFIDENCE_THRESHOLD = Some [det09].
Proof.
  apply (proj2 nms_characterization det09 det06 det04);
    [by vm_compute..|].
  etrans; [apply Permutation_swap|]. apply Permutation_skip.
  etrans; [apply Permutation_swap|]. done.
Defined.

(** C3: applying the suppression to its own result, with the same
    thresholds, returns that result. *)
Theorem nms_idempotent P t_iou t_conf :
  ∃ k, _non_max_suppression P t_iou t_conf = Some k
       ∧ _non_max_suppression k t_iou t_conf = Some k.
Proof.
  set (s := Py.sort_desc confidence (survivors t_conf P)).
  assert (Hsub : walk t_iou s [] `sublist_of` s) by apply walk_nil_sublist.
  exists (walk t_iou s []). split; [apply nms_walk|].
  rewrite nms_walk. f_equal.
  rewrite survivors_id.
  2:{ apply Forall_forall. intros d Hd.
      eapply sublist_subseteq in Hd; [|done].
      by apply (sort_desc_elem confidence), survivors_elem in Hd as [_ ?]. }
  rewrite sort_desc_id; [apply walk_walk|].
  eapply sublist_sorted; [done|]. apply sort_desc_sorted.
Qed.

(** C4: with the IoU threshold fixed, raising the confidence threshold
    can only shrink the result: the detections kept at the higher
    threshold are the first of those kept at the lower one, hence a
    subset of them, and not more. *)
Theorem nms_confidence_antitone P t_iou t1 t2 :
  (t1 <= t2)%Q →
  ∃ k1 k2,
    _non_max_suppression P t_iou t1 = Some k1
    ∧ _non_max_suppression P t_iou t2 = Some k2
    ∧ k2 `prefix_of` k1 ∧ k2 ⊆ k1 ∧ length k2 ≤ length k1.
Proof.
  intros Ht. do 2 eexists. rewrite !nms_walk.
  split; [done|]. split; [done|].
  assert (Hs : Py.sort_desc confidence (survivors t2 P)
               `prefix_of` Py.sort_desc confidence (survivors t1 P)).
  { replace (survivors t2 P) with (survivors t2 (survivors t1 P)).
    2:{ apply filter_filter_impl. intros d Hd%Qle_bool_iff.
        apply Qle_bool_iff. lra. }
    unfold survivors at 1. rewrite <- filter_sort_desc.
    apply filter_threshold_prefix, sort_desc_sorted. }
  destruct Hs as [r ->]. rewrite walk_app.
  assert (Hp := walk_prefix t_iou r
                  (walk t_iou (Py.sort_desc confidence (survivors t2 P)) [])).
  split; [done|]. split; [|by apply prefix_length].
  destruct Hp as [r' ->]. intros d Hd. apply elem_of_app. by left.
Qed.

Lemma nms_confidence_antitone_witness :
  ∃ k1 k2,
    _non_max_suppression [det04; det09; box 30 30 2 2] IOU_THRESHOLD 0
    = Some k1
    ∧ _non_max_suppression [det04; det09; box 30 30 2 2] IOU_THRESHOLD 0.5
      = Some k2
    ∧ k2 `prefix_of` k1 ∧ k2 ⊆ k1 ∧ length k2 ≤ length k1.
Proof.
  apply (nms_confidence_antitone [det04; det09; box 30 30 2 2]
           IOU_THRESHOLD 0 0.5).
  by vm_compute.
Defined.

(** C9: the result of the suppression is sorted by non-increasing
    confidence, and is a subsequence of the survivors of the confidence
    filter in stable descending order. *)
Theorem nms_output_order P t_iou t_conf :
  ∃ s k,
    stable_desc_sort confidence (survivors t_conf P) s
    ∧ _non_max_suppression P t_iou t_conf = Some k
    ∧ StronglySorted (desc confidence) k
    ∧ k `sublist_of` s.
Proof.
  exists (Py.sort_desc confidence (survivors t_conf P)). eexists.
  split; [apply sort_desc_stable|]. split; [apply nms_walk|].
  split; [|apply walk_nil_sublist].
  eapply sublist_sorted; [apply walk_nil_sublist|apply sort_desc_sorted].
Qed.

(** C6: a prediction of a tile, merged into the image, has its centre
    moved by the offset of the tile; width, height, class and confidence
    are those of the tile's prediction.  The loop appends the merged
    predictions of a tile in their order. *)
Theorem merge_prediction_offset (left top : Z) (pred : prediction) :
  let merged := merge_prediction left top pred in
  p_x merged = Some (default 0 (p_x pred) + inject_Z left)%Q
  ∧ p_y merged = Some (default 0 (p_y pred) + inject_Z top)%Q
  ∧ p_width merged = p_width pred
  ∧ p_height merged = p_height pred
  ∧ p_class merged = p_class pred
  ∧ p_confidence merged = p_confidence pred
  ∧ ∀ tile_predictions merged_predictions,
      merge_tile left top tile_predictions merged_predictions
      = merged_predictions
        ++ (merge_prediction left top <$> tile_predictions).
Proof.
  repeat split. intros tile. unfold merge_tile.
  induction tile as [|p tile IH]; intros merged; cbn.
  - by rewrite app_nil_r.
  - by rewrite IH, <- app_assoc.
Qed.
End NMSProperties.

(** ** CircuitGraph *)

Section Graph.
Implicit Types (G : nx_graph) (g : CircuitGraph) (a b u v : string).

Lemma touch_node_present u G :
  is_Some (_node G !! u) → touch_node u G = G.
Proof. intros [x Hx]. unfold touch_node. by rewrite Hx. Qed.

Lemma touch_node_node u G : is_Some (_node (touch_node u G) !! u).
Proof.
  unfold touch_node. destruct (_node G !! u) eqn:E; [by rewrite E|].
  cbn. by rewrite lookup_insert_eq.
Qed.

Lemma touch_node_mono u v G :
  is_Some (_node G !! v) → is_Some (_node (touch_node u G) !! v).
Proof.
  intros Hv. unfold touch_node. destruct (_node G !! u); [done|]. cbn.
  rewrite lookup_insert. by case_decide.
Qed.

Lemma add_edge_node_l u v G : is_Some (_node (add_edge u v G) !! u).
Proof. apply touch_node_mono, touch_node_node. Qed.

Lemma add_edge_node_r u v G : is_Some (_node (add_edge u v G) !! v).
Proof. apply touch_node_node. Qed.

(** The adjacency after [add_edge], on a graph that has both ends. *)
Lemma add_edge_present u v G :
  is_Some (_node G !! u) → is_Some (_node G !! v) →
  add_edge u v G
  = {| _node := _node G;
       _adj := <[v := {[u]} ∪ default ∅
                        (<[u := {[v]} ∪ default ∅ (_adj G !! u)]> (_adj G)
                         !! v)]>
                 (<[u := {[v]} ∪ default ∅ (_adj G !! u)]> (_adj G)) |}.
Proof.
  intros Hu Hv. unfold add_edge.
  by rewrite (touch_node_present u G), (touch_node_present v G).
Qed.

(** An edge that the graph has is not added again, in either order of
    its ends. *)
Lemma add_edge_twice u v G :
  u ≠ v → add_edge u v (add_edge u v G) = add_edge u v G.
Proof.
  intros Hne.
  rewrite (add_edge_present u v (add_edge u v G))
    by (apply add_edge_node_l || apply add_edge_node_r).
  destruct (add_edge u v G) as [N Adj] eqn:E. cbn. f_equal.
  assert (HAdj : Adj = _adj (add_edge u v G)) by by rewrite E.
  unfold add_edge in HAdj; cbn in HAdj.
  set (A0 := _adj (touch_node v (touch_node u G))) in *.
  apply map_eq. intros k. subst Adj.
  repeat (rewrite !lookup_insert; repeat case_decide; subst; cbn);
    try done; f_equal; set_solver.
Qed.

Lemma add_edge_swap u v G :
  u ≠ v → add_edge v u (add_edge u v G) = add_edge u v G.
Proof.
  intros Hne.
  rewrite (add_edge_present v u (add_edge u v G))
    by (apply add_edge_node_l || apply add_edge_node_r).
  destruct (add_edge u v G) as [N Adj] eqn:E. cbn. f_equal.
  assert (HAdj : Adj = _adj (add_edge u v G)) by by rewrite E.
  unfold add_edge in HAdj; cbn in HAdj.
  set (A0 := _adj (touch_node v (touch_node u G))) in *.
  apply map_eq. intros k. subst Adj.
  repeat (rewrite !lookup_insert; repeat case_decide; subst; cbn);
    try done; f_equal; set_solver.
Qed.

Lemma add_connection_self a g : add_connection a a g = Some g.
Proof. unfold add_connection. by case_decide. Qed.

Lemma add_connection_twice a b g :
  add_connection a b g ≫= add_connection a b = add_connection a b g.
Proof.
  unfold add_connection at 2 3. case_decide as Hne; cbn.
  - unfold add_connection. rewrite decide_True by done. cbn.
    rewrite add_edge_twice by done. do 2 f_equal.
    destruct (decide (connection_str a b ∉ connections g)) as [Hn|Hn].
    + rewrite decide_False; [done|].
      intros Hn'. apply Hn', elem_of_app. right. by left.
    + by rewrite decide_False.
  - subst. apply add_connection_self.
Qed.

(** The networkx graph records an unordered pair once, whatever the
    order of the two identifiers. *)
Lemma add_connection_swap_graph a b g :
  graph <$> (add_connection a b g ≫= add_connection b a)
  = graph <$> add_connection a b g.
Proof.
  destruct (decide (a = b)) as [->|Hne].
  - rewrite add_connection_self. cbn. by rewrite add_connection_self.
  - unfold add_connection. rewrite decide_True by done. cbn.
    rewrite decide_True by done. cbn. by rewrite add_edge_swap.
Qed.

(** C7: [add_connection(a, a)] changes nothing, and a second
    [add_connection(a, b)] changes nothing; the networkx graph holds one
    edge for an unordered pair.  The netlist, however, is keyed by the
    string ["a -- b"]: after [add_connection("R1", "U1")] and
    [add_connection("U1", "R1")] it holds two entries for the one edge
    of the graph. *)
Theorem add_connection_netlist_pair :
  (∀ g a, add_connection a a g = Some g)
  ∧ (∀ g a b,
       add_connection a b g ≫= add_connection a b = add_connection a b g)
  ∧ (∀ g a b,
       graph <$> (add_connection a b g ≫= add_connection b a)
       = graph <$> add_connection a b g)
  ∧ (get_netlist <$> add_connection "R1" "U1" new_graph
     = Some ["R1 -- U1"])
  ∧ (get_netlist <$> (add_connection "R1" "U1" new_graph
                      ≫= add_connection "U1" "R1")
     = Some ["R1 -- U1"; "U1 -- R1"])
  ∧ (size ∘ edges ∘ graph <$> (add_connection "R1" "U1" new_graph
                                ≫= add_connection "U1" "R1")
     = Some 1).
Proof.
  split; [intros; apply add_connection_self|].
  split; [intros; apply add_connection_twice|].
  split; [intros; apply add_connection_swap_graph|].
  by vm_compute.
Qed.

(** C8, as the specification states it, at a concrete graph: the
    identifier ["R1"] is a node, and adding it again does not fail. *)
Lemma add_component_duplicate_accepted :
  "R1" ∈ nodes graph_R1
  ∧ add_component "R1" "Resistor" sample_bbox graph_R1 ≠ None.
Proof.
  split; [|done]. unfold nodes, graph_R1; cbn.
  rewrite dom_insert_L. set_solver.
Qed.

(** C8, amended: [add_component] never fails.  It makes the identifier
    a node with the given attributes, and appends an entry to the list
    of components; for an identifier that is already a node the set of
    nodes stays as it is and the list gets a second entry for it. *)
Theorem add_component_total component_id component_type (bb : bbox) g :
  ∃ g',
    add_component component_id component_type bb g = Some g'
    ∧ nodes g' = {[component_id]} ∪ nodes g
    ∧ _node (graph g') !! component_id
      = Some (NodeAttrs (Some component_type) (Some bb))
    ∧ components g'
      = components g ++ [Component component_id component_type bb]
    ∧ connections g' = connections g.
Proof.
  eexists. split; [done|]. unfold nodes; cbn.
  by rewrite dom_insert_L, lookup_insert_eq.
Qed.
End Graph.

(** ** Generated identifiers *)

Section Naming.
Implicit Types (counters : gmap string nat) (key prefix i : string).

Lemma classify_table class_name : classify class_name ∈ prefix_table.
Proof.
  unfold classify, prefix_table.
  repeat match goal with
         | |- context [if ?b then _ else _] => destruct b
         end; repeat constructor.
Qed.

Lemma component_counters_has : has_counters component_counters.
Proof.
  intros key prefix H. unfold prefix_table in H.
  repeat (apply elem_of_cons in H as [[= -> ->]|H]); try by eexists.
  by apply elem_of_nil in H.
Qed.

Lemma bump_spec key prefix counters n :
  counters !! key = Some n →
  bump key prefix counters
  = Some (prefix +:+ pretty (S n), <[key := S n]> counters).
Proof.
  intros H. unfold bump. rewrite H; cbn. by rewrite lookup_insert_eq.
Qed.

Lemma get_generic_id_spec class_name counters :
  has_counters counters →
  ∃ key prefix n,
    classify class_name = (key, prefix)
    ∧ (key, prefix) ∈ prefix_table
    ∧ counters !! key = Some n
    ∧ get_generic_id class_name counters
      = Some (prefix +:+ pretty (S n), <[key := S n]> counters).
Proof.
  intros Hc. unfold get_generic_id.
  pose proof (classify_table class_name) as Ht.
  destruct (classify class_name) as [key prefix].
  destruct (Hc key prefix Ht) as [n Hn].
  exists key, prefix, n. by rewrite (bump_spec _ _ _ n).
Qed.

Lemma has_counters_insert key n counters :
  has_counters counters → has_counters (<[key := n]> counters).
Proof.
  intros Hc k p Hk. rewrite lookup_insert. case_decide; [done|].
  by eapply Hc.
Qed.

Lemma has_counters_reset counters :
  has_counters counters → has_counters (reset_counters counters).
Proof.
  intros Hc k p Hk. unfold reset_counters. rewrite lookup_fmap.
  destruct (Hc k p Hk) as [n ->]. by eexists.
Qed.

Lemma reachable_has_counters counters :
  reachable counters → has_counters counters.
Proof.
  induction 1 as [|counters _ IH|c counters i counters' _ IH Hg].
  - apply component_counters_has.
  - by apply has_counters_reset.
  - destruct (get_generic_id_spec c counters IH)
      as (key & prefix & n & _ & _ & _ & Hg').
    rewrite Hg' in Hg. injection Hg as _ <-.
    by apply has_counters_insert.
Qed.

(** An identifier determines its counter and its number. *)
Lemma generated_id_inj key prefix key' prefix' (m m' : nat) :
  (key, prefix) ∈ prefix_table → (key', prefix') ∈ prefix_table →
  prefix +:+ pretty m = prefix' +:+ pretty m' →
  key = key' ∧ m = m'.
Proof.
  unfold prefix_table. intros H H' Heq.
  repeat (apply elem_of_cons in H as [[= -> ->]|H]);
    try (by apply elem_of_nil in H);
    repeat (apply elem_of_cons in H' as [[= -> ->]|H']);
    try (by apply elem_of_nil in H');
    cbn in Heq; try discriminate.
  all: split; [done|].
  all: apply (inj (String.app _)) in Heq; by apply (inj pretty) in Heq.
Qed.

Lemma issued_after_insert key prefix n counters i :
  (key, prefix) ∈ prefix_table → counters !! key = Some n →
  issued_after (<[key := S n]> counters) i → issued_after counters i.
Proof.
  intros Ht Hn (k & p & a & m & Hk & Ha & Ham & ->).
  rewrite lookup_insert in Ha. case_decide as E.
  - subst k. injection Ha as <-. exists key, p, n, m.
    repeat split; [done..|lia].
  - by exists k, p, a, m.
Qed.

(** A run of calls succeeds, and its identifiers are pairwise distinct
    and were all issued after the state in which the run began. *)
Lemma get_generic_ids_spec class_names counters :
  has_counters counters →
  ∃ ids counters',
    get_generic_ids class_names counters = Some (ids, counters')
    ∧ NoDup ids ∧ Forall (issued_after counters) ids.
Proof.
  revert counters.
  induction class_names as [|c cs IH]; intros counters Hc; cbn.
  - exists [], counters. by repeat constructor.
  - destruct (get_generic_id_spec c counters Hc)
      as (key & prefix & n & _ & Ht & Hn & ->); cbn.
    destruct (IH (<[key := S n]> counters))
      as (ids & counters' & -> & Hnd & Hall);
      [by apply has_counters_insert|]; cbn.
    eexists _, _. split; [done|]. split.
    + constructor; [|done]. intros Hin.
      eapply Forall_forall in Hall; [|done].
      destruct Hall as (k & p & a & m & Hk & Ha & Ham & Heq).
      destruct (generated_id_inj _ _ _ _ _ _ Ht Hk Heq) as [<- <-].
      rewrite lookup_insert_eq in Ha. injection Ha as <-. lia.
    + constructor.
      * exists key, prefix, n, (S n). repeat split; [done..|lia].
      * eapply Forall_impl; [done|]. intros i.
        by apply (issued_after_insert key prefix).
Qed.

Lemma reset_counters_zero counters key n :
  reset_counters counters !! key = Some n → n = 0.
Proof.
  unfold reset_counters. rewrite lookup_fmap.
  destruct (counters !! key); cbn; congruence.
Qed.

(** C10: in any state of the counters that the program can reach,
    after [reset_counters] every run of calls of [get_generic_id]
    returns pairwise distinct identifiers; each call increments the
    counter that its class selects and returns the prefix of that
    counter followed by the new value. *)
Theorem generic_ids_distinct counters :
  reachable counters →
  (∀ class_names, ∃ ids counters',
      get_generic_ids class_names (reset_counters counters)
      = Some (ids, counters')
      ∧ NoDup ids)
  ∧ (∀ class_name, ∃ key prefix n,
      (key, prefix) ∈ prefix_table
      ∧ counters !! key = Some n
      ∧ get_generic_id class_name counters
        = Some (prefix +:+ pretty (S n), <[key := S n]> counters)).
Proof.
  intros Hc%reachable_has_counters. split.
  - intros class_names.
    destruct (get_generic_ids_spec class_names (reset_counters counters))
      as (ids & counters' & H & Hnd & _);
      [by apply has_counters_reset|].
    by exists ids, counters'.
  - intros class_name.
    destruct (get_generic_id_spec class_name counters Hc)
      as (key & prefix & n & _ & Ht & Hn & H).
    by exists key, prefix, n.
Qed.

Lemma generic_ids_distinct_witness :
  ∃ ids counters',
    get_generic_ids ["Resistor"; "IC"; "resistor"; "LED"; "Capacitor"]
      (reset_counters component_counters)
    = Some (ids, counters')
    ∧ NoDup ids.
Proof.
  apply (generic_ids_distinct component_counters). constructor.
Defined.
End Naming.

(** ** Slices and sampled windows *)

Section Windows.
Context {A : Type}.
Implicit Types (l : list A) (lo hi : Z).

(** With indices that are not negative, a slice is the window between
    them. *)
Lemma slice_nonneg lo hi l :
  (0 <= lo)%Z → (0 <= hi)%Z →
  Py.slice lo hi l = window (Z.to_nat lo) (Z.to_nat hi) l.
Proof.
  intros Hlo Hhi. unfold Py.slice, Py.slice_index, window.
  rewrite !(proj2 (Z.ltb_ge _ 0)) by done.
  destruct (decide (length l ≤ Z.to_nat lo)) as [Hge|Hlt].
  - rewrite !drop_ge by lia. by rewrite !take_nil.
  - rewrite (Z.min_l lo) by lia.
    destruct (decide (length l ≤ Z.to_nat hi)) as [Hge'|Hlt'].
    + rewrite !take_ge; [done|rewrite length_drop; lia..].
    + f_equal. lia.
Qed.

Lemma elem_of_window (lo hi : nat) l x :
  x ∈ window lo hi l ↔ ∃ i, lo ≤ i < hi ∧ l !! i = Some x.
Proof.
  unfold window. rewrite list_elem_of_lookup. split.
  - intros [j Hj]. apply lookup_take_Some in Hj as [Hj Hlt].
    rewrite lookup_drop in Hj. exists (lo + j). split; [lia|done].
  - intros (i & Hi & Hx). exists (i - lo). apply lookup_take_Some.
    rewrite lookup_drop. split; [|lia].
    by replace (lo + (i - lo)) with i by lia.
Qed.
End Windows.

Section Sampling.
Implicit Types (img : image) (x y : Z).

(** For a point that is not further than the margin to the left of or
    above the image, the test of the neighbourhood finds exactly the
    track pixels of the image in the square around the point. *)
Lemma get_track_mask_at_point_window img x y :
  (-5 <= x)%Z → (-5 <= y)%Z →
  get_track_mask_at_point img x y 5 = true ↔ track_near img x y.
Proof.
  intros Hx Hy. unfold get_track_mask_at_point, slice2, white, track_near.
  assert (0 <= shape1 img)%Z by (unfold shape1; destruct img; lia).
  assert (0 <= shape0 img)%Z by (unfold shape0; lia).
  rewrite bool_decide_eq_true.
  rewrite (slice_nonneg _ _ img) by lia.
  split.
  - intros Hne.
    destruct (List.filter _ _) as [|v vs] eqn:E; [done|].
    assert (Hv : In v (List.filter (λ v, 127 <? v)%Z
      (concat (Py.slice (Z.max 0 (x - 5)) (Z.min (shape1 img) (x + 5))
               <$> window (Z.to_nat (Z.max 0 (y - 5)))
                     (Z.to_nat (Z.min (shape0 img) (y + 5))) img))))
      by (rewrite E; by left).
    apply filter_In in Hv as [Hv Hw%Z.ltb_lt].
    apply in_concat in Hv as (r & Hr%list_elem_of_In & Hv%list_elem_of_In).
    apply list_elem_of_fmap in Hr as (row & -> & Hrow).
    rewrite slice_nonneg in Hv by lia.
    apply elem_of_window in Hrow as (i & Hi & Hrow).
    apply elem_of_window in Hv as (j & Hj & Hv).
    exists i, j, row, v. repeat split; [done|done|lia..|done].
  - intros (i & j & row & v & Hrow & Hv & Hi & Hj & Hw & Hv').
    intros Hnil.
    assert (Hin : In v (List.filter (λ v, 127 <? v)%Z
      (concat (Py.slice (Z.max 0 (x - 5)) (Z.min (shape1 img) (x + 5))
               <$> window (Z.to_nat (Z.max 0 (y - 5)))
                     (Z.to_nat (Z.min (shape0 img) (y + 5))) img)))).
    2:{ by rewrite Hnil in Hin. }
    apply filter_In. split; [|by apply Z.ltb_lt].
    apply in_concat.
    exists (Py.slice (Z.max 0 (x - 5)) (Z.min (shape1 img) (x + 5)) row).
    split; apply list_elem_of_In.
    + apply list_elem_of_fmap_2, elem_of_window. exists i. split; [|done].
      apply lookup_lt_Some in Hrow. unfold shape0. lia.
    + rewrite slice_nonneg by lia. apply elem_of_window.
      exists j. split; [lia|done].
Qed.

(** A point further than the margin to the left of the image: the stop
    index of the slice is negative, and a negative index of a slice
    counts from the end.  The window is then the rows around the point
    over the columns up to that index, whatever their distance. *)
Example get_track_mask_at_point_left_of_image :
  get_track_mask_at_point all_track (-10) 50 5 = true
  ∧ ¬ track_near all_track (-10) 50.
Proof.
  split; [vm_compute; reflexivity|].
  intros (i & j & row & v & _ & _ & _ & Hj & _). lia.
Qed.

(** For centres that are not further than the margin to the left of or
    above the image, the region of interest is the window of rows and
    columns between the bounds that the code computes. *)
Lemma continuity_roi_window (b1 b2 : bbox) img :
  let x1 := Py.int (bx b1) in
  let y1 := Py.int (by_ b1) in
  let x2 := Py.int (bx b2) in
  let y2 := Py.int (by_ b2) in
  (-25 <= Z.max x1 x2)%Z → (-25 <= Z.max y1 y2)%Z →
  continuity_roi b1 b2 img
  = window (Z.to_nat (Z.max 0 (Z.min x1 x2 - 25)))
      (Z.to_nat (Z.min (shape1 img) (Z.max x1 x2 + 25)))
    <$> window (Z.to_nat (Z.max 0 (Z.min y1 y2 - 25)))
          (Z.to_nat (Z.min (shape0 img) (Z.max y1 y2 + 25))) img.
Proof.
  intros x1 y1 x2 y2 Hx Hy. unfold continuity_roi, slice2.
  fold x1 y1 x2 y2.
  assert (0 <= shape1 img)%Z by (unfold shape1; destruct img; lia).
  assert (0 <= shape0 img)%Z by (unfold shape0; lia).
  rewrite slice_nonneg by lia. apply list_fmap_ext. intros _ row _.
  by rewrite slice_nonneg by lia.
Qed.
End Sampling.

(** ** Connectivity *)

Section Connectivity.
Implicit Types (b : bbox) (img : image).

(** The comparison on squares decides the comparison of the root. *)
Lemma sqrt_lt_spec (s d : Q) :
  (0 <= s)%Q → Py.sqrt_lt s d = true ↔ (sqrt (Q2R s) < Q2R d)%R.
Proof.
  intros Hs. unfold Py.sqrt_lt.
  rewrite andb_true_iff, !Qlt_bool_iff.
  apply Qle_Rle in Hs. rewrite RMicromega.Q2R_0 in Hs.
  split.
  - intros [Hd Hsd]. apply Qlt_Rlt in Hd, Hsd.
    rewrite RMicromega.Q2R_0 in Hd. rewrite Q2R_mult in Hsd.
    rewrite <- (sqrt_square (Q2R d)) by lra.
    by apply sqrt_lt_1; [|nra|].
  - intros Hlt. pose proof (sqrt_pos (Q2R s)) as Hp.
    assert (Hd : (0 < Q2R d)%R) by lra.
    split; apply Rlt_Qlt; rewrite ?RMicromega.Q2R_0, ?Q2R_mult; [done|].
    rewrite <- (sqrt_sqrt (Q2R s)) by done. nra.
Qed.

Lemma sum_of_squares_nonneg (a b : Q) : (0 <= a ^ 2 + b ^ 2)%Q.
Proof. nra. Qed.

Lemma truediv_nat (a n : nat) :
  n ≠ 0 →
  Py.truediv (inject_Z (Z.of_nat a)) (inject_Z (Z.of_nat n))
  = Some (inject_Z (Z.of_nat a) / inject_Z (Z.of_nat n))%Q.
Proof.
  intros Hn. apply truediv_Some. unfold Qeq; cbn. lia.
Qed.

Lemma length_points_to_check b (n : nat) :
  length (points_to_check b n) = 4 * n.
Proof.
  unfold points_to_check.
  rewrite !length_app, !length_fmap, length_seq. lia.
Qed.

(** The overlap test never raises: it compares the hit ratio. *)
Lemma check_track_component_overlap_ratio img b (min_hit_ratio : Q) :
  check_track_component_overlap img b 12 min_hit_ratio
  = Some (Qle_bool min_hit_ratio (hit_ratio img b)).
Proof.
  unfold check_track_component_overlap, hit_ratio.
  pose proof (length_points_to_check b 12) as Hlen.
  destruct (points_to_check b 12) as [|p ps] eqn:E; [done|].
  rewrite truediv_nat by (rewrite Hlen; lia). done.
Qed.

(** The continuity test never raises: it compares the track
    fraction, and fails on an empty region. *)
Lemma check_track_continuity_fraction b1 b2 img :
  check_track_continuity b1 b2 img
  = Some (match track_fraction b1 b2 img with
          | Some f => Py.Qlt_bool 0.40 f
          | None => false
          end).
Proof.
  unfold check_track_continuity, track_fraction.
  case_decide as Hsz; [done|]. by rewrite truediv_nat.
Qed.

(** [are_components_connected] always returns, and it returns [True]
    exactly when the hit ratio that the code computes for each component
    is at least 0.35, the Euclidean distance of the centres is below
    140, and the track fraction of the region that the code cuts out is
    above 0.40.  Components whose centres are 500 pixels apart are not
    connected. *)
Lemma are_components_connected_measures (comp1 comp2 : component) img :
  let b1 := comp_bbox comp1 in
  let b2 := comp_bbox comp2 in
  is_Some (are_components_connected comp1 comp2 img)
  ∧ (are_components_connected comp1 comp2 img = Some true ↔
       (0.35 <= hit_ratio img b1)%Q
       ∧ (0.35 <= hit_ratio img b2)%Q
       ∧ (centre_distance b1 b2 < 140)%R
       ∧ ∃ f, track_fraction b1 b2 img = Some f ∧ (0.40 < f)%Q)
  ∧ (centre_distance b1 b2 = 500%R →
     are_components_connected comp1 comp2 img = Some false).
Proof.
  intros b1 b2. unfold are_components_connected.
  fold b1 b2. rewrite !check_track_component_overlap_ratio.
  cbn [mbind option_bind]. rewrite check_track_continuity_fraction.
  assert (Hd : Py.sqrt_lt ((bx b2 - bx b1) ^ 2 + (by_ b2 - by_ b1) ^ 2) 140
               = true ↔ (centre_distance b1 b2 < 140)%R).
  { rewrite sqrt_lt_spec by apply sum_of_squares_nonneg.
    unfold centre_distance.
    replace (Q2R 140) with 140%R; [done|]. unfold Q2R; cbn. lra. }
  destruct (Qle_bool 0.35 (hit_ratio img b1)) eqn:E1; cbn [andb negb].
  2:{ apply Qle_bool_false_iff in E1.
      split; [by eexists|]. split; [|done].
      split; [done|]. intros (? & _). lra. }
  destruct (Qle_bool 0.35 (hit_ratio img b2)) eqn:E2; cbn [andb negb].
  2:{ apply Qle_bool_false_iff in E2.
      split; [by eexists|]. split; [|done].
      split; [done|]. intros (_ & ? & _). lra. }
  apply Qle_bool_iff in E1, E2.
  destruct (Py.sqrt_lt _ 140) eqn:E3.
  - assert (Hlt : (centre_distance b1 b2 < 140)%R) by by apply Hd.
    split; [by eexists|]. split; [|intros ?; lra].
    destruct (track_fraction b1 b2 img) as [f|]; split.
    + intros [= Hf%Qlt_bool_iff].
      split; [exact E1|]. split; [exact E2|]. split; [exact Hlt|].
      by exists f.
    + intros (_ & _ & _ & f' & [= <-] & Hf%Qlt_bool_iff). by rewrite Hf.
    + done.
    + by intros (_ & _ & _ & f' & ? & _).
  - split; [by eexists|]. split; [|done].
    split; [done|]. intros (_ & _ & Hlt%Hd & _). congruence.
Qed.

(** Two components 50 pixels apart on a board that is all track are
    connected. *)
Example are_components_connected_near :
  are_components_connected (comp_at "R1" 20 20) (comp_at "R2" 70 20)
    all_track = Some true.
Proof. vm_compute. reflexivity. Qed.
End Connectivity.

(** ** Connectivity on the pixels of the mask *)

Section Pixels.
Implicit Types (img : image) (b : bbox).

Lemma bind_nil {A B} (f : A → list B) (l : list A) :
  (∀ x, x ∈ l → f x = []) → l ≫= f = [].
Proof.
  induction l as [|x l IH]; intros H; [done|]. cbn.
  rewrite H by left. apply IH. intros y Hy. apply H. by right.
Qed.

Lemma bind_ext_elem {A B} (f g : A → list B) (l : list A) :
  (∀ x, x ∈ l → f x = g x) → l ≫= f = l ≫= g.
Proof.
  induction l as [|x l IH]; intros H; [done|]. cbn.
  rewrite H by left. f_equal. apply IH. intros y Hy. apply H. by right.
Qed.

Lemma bind_bind {A B C} (f : A → list B) (g : B → list C) (l : list A) :
  (l ≫= f) ≫= g = l ≫= (λ x, f x ≫= g).
Proof.
  induction l as [|x l IH]; [done|]. cbn. by rewrite bind_app, IH.
Qed.

Lemma concat_fmap_bind {A B} (f : A → list B) (l : list A) :
  concat (f <$> l) = l ≫= f.
Proof. induction l as [|x l IH]; [done|]. cbn. by rewrite IH. Qed.

Lemma take_lookups {A} (n : nat) (l : list A) :
  take n l = seq 0 n ≫= (λ i, option_list (l !! i)).
Proof.
  revert n. induction l as [|x l IH]; intros n.
  - rewrite take_nil. symmetry. by apply bind_nil.
  - destruct n as [|n]; [done|]. cbn. f_equal. rewrite IH.
    rewrite <- fmap_S_seq. by rewrite list_fmap_bind.
Qed.

Lemma lookups_slice {A} (l : list A) (lo hi : Z) :
  (0 <= hi)%Z →
  lookups l lo hi
  = Py.slice (Z.max 0 lo) (Z.min (Z.of_nat (length l)) hi) l.
Proof.
  intros Hhi. unfold lookups.
  set (f := λ i : Z, option_list (if (i <? 0)%Z then None
                                  else l !! Z.to_nat i)).
  assert (Hlo : seqZ lo (hi - lo) ≫= f
                = seqZ (Z.max 0 lo) (hi - Z.max 0 lo) ≫= f).
  { destruct (decide (0 <= lo)%Z) as [?|Hneg];
      [by rewrite Z.max_r by done|].
    rewrite Z.max_l by lia.
    replace (hi - lo)%Z with (- lo + hi)%Z by lia.
    rewrite seqZ_app by lia. rewrite bind_app.
    rewrite (bind_nil f (seqZ lo (- lo))).
    - by replace (lo + - lo)%Z with 0%Z by lia; rewrite Z.sub_0_r.
    - intros i Hi%elem_of_seqZ. unfold f.
      by rewrite (proj2 (Z.ltb_lt i 0)) by lia. }
  rewrite Hlo. rewrite slice_nonneg by lia. unfold window.
  set (a := Z.max 0 lo).
  destruct (decide (hi <= a)%Z) as [Hle|Hgt].
  - rewrite seqZ_nil by lia.
    replace (Z.to_nat (Z.min (Z.of_nat (length l)) hi) - Z.to_nat a)
      with 0 by lia.
    done.
  - unfold seqZ. rewrite list_fmap_bind.
    rewrite (bind_ext_elem _ (λ i, option_list (drop (Z.to_nat a) l !! i))).
    2:{ intros i _. unfold f; cbn.
        rewrite (proj2 (Z.ltb_ge _ 0)) by lia. rewrite lookup_drop.
        do 2 f_equal. lia. }
    rewrite <- take_lookups.
    destruct (decide (hi <= Z.of_nat (length l))%Z) as [?|?].
    + f_equal. lia.
    + rewrite !take_ge; [done|rewrite length_drop; lia..].
Qed.

Lemma elem_of_lookups {A} (l : list A) (lo hi : Z) x :
  x ∈ lookups l lo hi → x ∈ l.
Proof.
  unfold lookups. intros (i & Hx & _)%list_elem_of_bind.
  destruct (i <? 0)%Z; [by apply elem_of_nil in Hx|].
  destruct (l !! Z.to_nat i) as [x'|] eqn:E; [|by apply elem_of_nil in Hx].
  apply list_elem_of_singleton in Hx as ->. by eapply list_elem_of_lookup_2.
Qed.

Lemma pixels_in_rows img (xa xb ya yb : Z) :
  pixels_in img xa xb ya yb
  = lookups img ya yb ≫= (λ row, lookups row xa xb).
Proof.
  unfold pixels_in, lookups. rewrite bind_bind.
  apply bind_ext_elem. intros y _. unfold pixel.
  destruct (y <? 0)%Z eqn:Ey.
  - cbn. apply bind_nil. intros x _. by rewrite orb_true_r.
  - unfold image in *.
    destruct (img !! Z.to_nat y) as [row|] eqn:E; cbn.
    + rewrite app_nil_r. apply bind_ext_elem. intros x _.
      by rewrite orb_false_r.
    + apply bind_nil. intros x _. by destruct (x <? 0)%Z.
Qed.

Lemma rectangular_shape1 img row :
  rectangular img → row ∈ img → Z.of_nat (length row) = shape1 img.
Proof.
  intros [w Hw] Hrow. destruct img as [|row0 img]; [by apply elem_of_nil in Hrow|].
  cbn. rewrite (Hw row Hrow), (Hw row0); [done|by left].
Qed.

(** Without a negative stop index, the cut of the image that the code
    takes holds the pixels of the rectangle, clipped to the image. *)
Lemma slice2_pixels img (xa xb ya yb : Z) :
  rectangular img → (0 <= xb)%Z → (0 <= yb)%Z →
  concat (slice2 (Z.max 0 ya) (Z.min (shape0 img) yb)
            (Z.max 0 xa) (Z.min (shape1 img) xb) img)
  = pixels_in img xa xb ya yb.
Proof.
  intros Hrect Hxb Hyb. unfold slice2, shape0.
  rewrite concat_fmap_bind, pixels_in_rows, <- lookups_slice by done.
  apply bind_ext_elem. intros row Hrow%elem_of_lookups.
  by rewrite lookups_slice, (rectangular_shape1 img row).
Qed.

Lemma filter_nonempty_existsb {A} (f : A → bool) (l : list A) :
  bool_decide (List.filter f l ≠ []) = existsb f l.
Proof.
  induction l as [|x l IH]; [done|]. cbn. destruct (f x); [done|].
  by rewrite <- IH.
Qed.

Lemma get_track_mask_at_point_touches img (x y : Z) :
  rectangular img → (-5 <= x)%Z → (-5 <= y)%Z →
  get_track_mask_at_point img x y 5 = touches img (x, y).
Proof.
  intros Hrect Hx Hy. unfold get_track_mask_at_point, touches, white.
  rewrite slice2_pixels by (done || lia).
  apply filter_nonempty_existsb.
Qed.

Lemma points_to_check_samples b (n : nat) :
  points_to_check b n = perimeter_samples b n.
Proof.
  unfold points_to_check, perimeter_samples, edge_points, Py.floordiv.
  by rewrite <- !list_fmap_compose.
Qed.

Lemma filter_ext_elem {A} (f g : A → bool) (l : list A) :
  (∀ x, x ∈ l → f x = g x) → List.filter f l = List.filter g l.
Proof.
  induction l as [|x l IH]; intros H; [done|]. cbn.
  rewrite H by left. rewrite IH; [done|]. intros y Hy. apply H. by right.
Qed.

(** For a box near the image, the hit ratio that the code computes is
    the perimeter hit ratio. *)
Lemma hit_ratio_perimeter img b :
  rectangular img → near_image b →
  hit_ratio img b = perimeter_hit_ratio img b.
Proof.
  intros Hrect Hnear. unfold hit_ratio, perimeter_hit_ratio, track_hits.
  rewrite points_to_check_samples.
  rewrite (filter_ext_elem _ (touches img)); [done|].
  intros [x y] Hp. destruct (Hnear _ Hp).
  by apply get_track_mask_at_point_touches.
Qed.

(** For centres near the image, the track fraction that the code
    computes is that of the region between the centres. *)
Lemma track_fraction_region img b1 b2 :
  rectangular img → centres_near_image b1 b2 →
  track_fraction b1 b2 img = region_track_fraction b1 b2 img.
Proof.
  intros Hrect [Hx Hy].
  unfold track_fraction, region_track_fraction, continuity_roi, np_size,
    white.
  rewrite slice2_pixels by (done || lia).
  set (region := pixels_in _ _ _ _ _).
  destruct region as [|v region']; [done|].
  rewrite decide_False by done. by rewrite decide_False by done.
Qed.

Lemma rectangular_replicate (h w : nat) (v : Z) :
  rectangular (replicate h (replicate w v)).
Proof.
  exists w. intros row [-> _]%elem_of_replicate. apply length_replicate.
Qed.

(** C1: [are_components_connected] always returns, and components whose
    centres are 500 pixels apart are not connected.  For boxes near the
    image (no sample point more than 5 pixels, and not both centres more
    than 25 pixels, to the left of the image or above it) it returns
    [True] exactly when the perimeter hit ratio of each component (12
    sample points on each edge, neighbourhood of margin 5) is at least
    0.35, the Euclidean distance of the centres is below 140, and the
    share of track pixels in the region between the centres, expanded
    by 25 pixels and clipped to the image, is above 0.40.  Further to
    the left or above, the stop index of the cut is negative and counts
    from the far border: the IC [edge_ic], which overhangs the left
    border by 20 pixels and has no track within 5 pixels of its
    perimeter, is connected to the resistor on the band; and two
    components 40 pixels to the left of a board that is all track, with
    no pixel in their neighbourhoods or between their centres, are
    connected. *)
Theorem are_components_connected_iff :
  (∀ comp1 comp2 img, is_Some (are_components_connected comp1 comp2 img))
  ∧ (∀ comp1 comp2 img,
       centre_distance (comp_bbox comp1) (comp_bbox comp2) = 500%R →
       are_components_connected comp1 comp2 img = Some false)
  ∧ (∀ comp1 comp2 img,
       let b1 := comp_bbox comp1 in
       let b2 := comp_bbox comp2 in
       rectangular img → near_image b1 → near_image b2 →
       centres_near_image b1 b2 →
       (are_components_connected comp1 comp2 img = Some true ↔
          (0.35 <= perimeter_hit_ratio img b1)%Q
          ∧ (0.35 <= perimeter_hit_ratio img b2)%Q
          ∧ (centre_distance b1 b2 < 140)%R
          ∧ ∃ f, region_track_fraction b1 b2 img = Some f ∧ (0.40 < f)%Q))
  ∧ (are_components_connected edge_ic band_resistor track_band = Some true
     ∧ (perimeter_hit_ratio track_band (comp_bbox edge_ic) == 0)%Q)
  ∧ (are_components_connected (comp_at "R1" (-40) 20)
       (comp_at "R2" (-40) 60) all_track = Some true
     ∧ (perimeter_hit_ratio all_track (comp_bbox (comp_at "R1" (-40) 20))
        == 0)%Q
     ∧ region_track_fraction (comp_bbox (comp_at "R1" (-40) 20))
         (comp_bbox (comp_at "R2" (-40) 60)) all_track = None).
Proof.
  split; [|split; [|split; [|split]]].
  - intros comp1 comp2 img.
    apply (are_components_connected_measures comp1 comp2 img).
  - intros comp1 comp2 img.
    apply (are_components_connected_measures comp1 comp2 img).
  - intros comp1 comp2 img b1 b2 Hrect Hn1 Hn2 Hc.
    rewrite <- !hit_ratio_perimeter, <- track_fraction_region by done.
    apply (are_components_connected_measures comp1 comp2 img).
  - split; by vm_compute.
  - split; [by vm_compute|]. split; by vm_compute.
Qed.

Lemma are_components_connected_iff_witness :
  (are_components_connected (comp_at "R1" 20 20) (comp_at "R2" 70 20)
     all_track = Some true ↔
   (0.35 <= perimeter_hit_ratio all_track (BBox 20 20 10 10))%Q
   ∧ (0.35 <= perimeter_hit_ratio all_track (BBox 70 20 10 10))%Q
   ∧ (centre_distance (BBox 20 20 10 10) (BBox 70 20 10 10) < 140)%R
   ∧ ∃ f, region_track_fraction (BBox 20 20 10 10) (BBox 70 20 10 10)
            all_track = Some f
          ∧ (0.40 < f)%Q)
  ∧ are_components_connected (comp_at "R1" 20 20) (comp_at "R2" 520 20)
      all_track = Some false.
Proof.
  split.
  2:{ apply (proj1 (proj2 are_components_connected_iff)
               (comp_at "R1" 20 20) (comp_at "R2" 520 20) all_track).
      unfold centre_distance.
      match goal with
      | |- context [Q2R ?q] =>
          let q' := eval vm_compute in q in change q with q'
      end.
      replace (Q2R _) with (500 * 500)%R; [apply sqrt_square; lra|].
      unfold Q2R; cbn. lra. }
  apply (proj1 (proj2 (proj2 are_components_connected_iff))
           (comp_at "R1" 20 20) (comp_at "R2" 70 20) all_track).
  - apply rectangular_replicate.
  - refine (proj1 (Forall_forall
                     (λ p : Z * Z, (-5 <= p.1)%Z ∧ (-5 <= p.2)%Z)
                     (perimeter_samples _ 12)) _).
    apply (bool_decide_unpack _). by vm_compute.
  - refine (proj1 (Forall_forall
                     (λ p : Z * Z, (-5 <= p.1)%Z ∧ (-5 <= p.2)%Z)
                     (perimeter_samples _ 12)) _).
    apply (bool_decide_unpack _). by vm_compute.
  - split; by vm_compute.
Defined.
End Pixels.



(** * Further properties of the code *)

(** ** Suppression: range of the IoU, best detection, order of the input *)

Section Suppression.
Implicit Types (a b c d : prediction) (s k P : list prediction).

Lemma iou_range a b : (0 <= iou a b <= 1)%Q.
Proof.
  unfold iou.
  destruct (compute_iou_cases a b)
    as [[-> _]|[(q & -> & Hq) (_ & Ha & Hb & Hi & Hia & Hib)]]; cbn.
  - lra.
  - rewrite Hq. unfold union_area.
    assert (Hu : (0 < area a + area b - intersection_area a b)%Q) by lra.
    split.
    + apply Qle_shift_div_l; [done|]. lra.
    + apply Qle_shift_div_r; [done|]. lra.
Qed.

(** The IoU of two boxes lies between 0 and 1. *)
Theorem compute_iou_range a b :
  ∃ q, _compute_iou a b = Some q ∧ (0 <= q <= 1)%Q.
Proof. exists (iou a b). split; [apply compute_iou_iou|apply iou_range]. Qed.

Lemma walk_cons_head t c s : ∃ k, walk t (c :: s) [] = c :: k.
Proof.
  change (walk t (c :: s) []) with (walk t s (step t [] c)).
  unfold step; cbn. by destruct (walk_prefix t s [c]) as [k ->]; exists k.
Qed.

Lemma sorted_head_max {A} (key : A → Q) (x y : A) (l : list A) :
  StronglySorted (desc key) (x :: l) → y ∈ x :: l → (key y <= key x)%Q.
Proof.
  intros [_ Hx]%StronglySorted_inv [->|Hy]%elem_of_cons; [lra|].
  by eapply Forall_forall in Hx.
Qed.

(** The result is empty exactly when no detection reaches the confidence
    threshold; otherwise its first element is a detection of the highest
    confidence among those that reach it. *)
Theorem nms_keeps_best P t_iou t_conf :
  (_non_max_suppression P t_iou t_conf = Some []
   ↔ ∀ d, d ∈ P → (confidence d < t_conf)%Q)
  ∧ ∀ d, d ∈ P → (t_conf <= confidence d)%Q →
      ∃ m k,
        _non_max_suppression P t_iou t_conf = Some (m :: k)
        ∧ m ∈ P ∧ (t_conf <= confidence m)%Q
        ∧ ∀ d', d' ∈ P → (t_conf <= confidence d')%Q →
                (confidence d' <= confidence m)%Q.
Proof.
  rewrite nms_walk.
  pose proof (sort_desc_sorted confidence (survivors t_conf P)) as Hsorted.
  pose proof (sort_desc_elem confidence) as Helem.
  destruct (Py.sort_desc confidence (survivors t_conf P)) as [|m s] eqn:E.
  - split.
    + split; [|done]. intros _ d Hd. apply Qnot_le_lt. intros Hle.
      assert (d ∈ survivors t_conf P) as Hs by by apply survivors_elem.
      apply Helem in Hs. rewrite E in Hs. by apply elem_of_nil in Hs.
    + intros d Hd Hle. exfalso.
      assert (d ∈ survivors t_conf P) as Hs by by apply survivors_elem.
      apply Helem in Hs. rewrite E in Hs. by apply elem_of_nil in Hs.
  - destruct (walk_cons_head t_iou m s) as [k Hk]. rewrite Hk.
    assert (Hm : m ∈ P ∧ (t_conf <= confidence m)%Q).
    { apply survivors_elem, Helem. rewrite E. by left. }
    split.
    + split; [done|]. intros H. destruct Hm as [Hm Hc].
      specialize (H m Hm). lra.
    + intros d Hd Hle. exists m, k. split; [done|].
      split; [apply Hm|]. split; [apply Hm|].
      intros d' Hd' Hle'. apply (sorted_head_max confidence m d' s); [done|].
      rewrite <- E. by apply Helem, survivors_elem.
Qed.

Lemma nms_keeps_best_witness :
  ∃ m k,
    _non_max_suppression [det04; det09; det06] IOU_THRESHOLD
      CONFIDENCE_THRESHOLD = Some (m :: k)
    ∧ m ∈ [det04; det09; det06] ∧ (CONFIDENCE_THRESHOLD <= confidence m)%Q
    ∧ ∀ d', d' ∈ [det04; det09; det06] →
            (CONFIDENCE_THRESHOLD <= confidence d')%Q →
            (confidence d' <= confidence m)%Q.
Proof.
  apply (proj2 (nms_keeps_best [det04; det09; det06] IOU_THRESHOLD
                  CONFIDENCE_THRESHOLD) det04).
  - by left.
  - by vm_compute.
Defined.

Lemma walk_pairwise t s : pairwise_below t (walk t s []).
Proof.
  induction s as [|c s IH] using rev_ind.
  - intros i j a b _ Hi. by destruct i.
  - rewrite walk_snoc. unfold step.
    destruct (duplicate t c (walk t s [])) eqn:E; [done|].
    pose proof (proj1 (duplicate_false t c _) E) as Hc.
    intros i j a b Hij Hi Hj.
    destruct (decide (j < length (walk t s []))) as [Hlt|Hge].
    + rewrite lookup_app_l in Hi, Hj by lia. exact (IH i j a b Hij Hi Hj).
    + apply lookup_lt_Some in Hj as Hj'. rewrite length_app in Hj'.
      cbn in Hj'. assert (j = length (walk t s [])) as -> by lia.
      rewrite lookup_app_l in Hi by lia.
      rewrite list_lookup_middle in Hj by done. injection Hj as <-.
      apply Hc. by eapply list_elem_of_lookup_2.
Qed.

(** Any two detections of the result are below the IoU threshold: the
    later against the earlier. *)
Theorem nms_pairwise_below P t_iou t_conf :
  ∃ k, _non_max_suppression P t_iou t_conf = Some k
       ∧ pairwise_below t_iou k.
Proof. rewrite nms_walk. eexists. split; [done|]. apply walk_pairwise. Qed.

Lemma with_key_filter {A} (key : A → Q) (f : A → bool) q (l : list A) :
  with_key key q (List.filter f l) = List.filter f (with_key key q l).
Proof.
  unfold with_key. induction l as [|x l IH]; cbn; [done|].
  destruct (f x) eqn:Ef, (Qeq_bool (key x) q) eqn:Ek; cbn;
    rewrite ?Ef, ?Ek, IH; done.
Qed.

Lemma length_filter_le {A} (f : A → bool) (l : list A) :
  length (List.filter f l) ≤ length l.
Proof.
  induction l as [|x l IH]; cbn; [done|]. destruct (f x); cbn; lia.
Qed.

Lemma Permutation_short {A} (l1 l2 : list A) :
  l1 ≡ₚ l2 → length l1 ≤ 1 → l1 = l2.
Proof.
  intros Hp Hl. destruct l1 as [|x [|y l1]]; cbn in Hl; [| |lia].
  - by apply Permutation_nil_l in Hp.
  - by apply Permutation_singleton_l in Hp.
Qed.

(** For detections of pairwise different confidences the result does not
    depend on the order of the input. *)
Theorem nms_order_independent P P' t_iou t_conf :
  P ≡ₚ P' → distinct_confidences P →
  _non_max_suppression P t_iou t_conf = _non_max_suppression P' t_iou t_conf.
Proof.
  intros HP Hd. rewrite !nms_walk. do 2 f_equal.
  apply (sorted_same_keys_eq confidence); [apply sort_desc_sorted..|].
  intros q.
  rewrite (proj2 (sort_desc_stable confidence (survivors t_conf P)) q).
  rewrite (proj2 (sort_desc_stable confidence (survivors t_conf P')) q).
  apply Permutation_short.
  - unfold with_key, survivors. by do 2 apply filter_Permutation_bool.
  - unfold survivors. rewrite with_key_filter.
    etrans; [apply length_filter_le|apply Hd].
Qed.

Lemma nms_order_independent_witness :
  _non_max_suppression [det04; det09; det06] IOU_THRESHOLD
    CONFIDENCE_THRESHOLD
  = _non_max_suppression [det06; det04; det09] IOU_THRESHOLD
      CONFIDENCE_THRESHOLD.
Proof.
  apply nms_order_independent.
  - etrans; [apply Permutation_skip, Permutation_swap|].
    apply Permutation_swap.
  - intros q. unfold with_key; cbn [List.filter].
    destruct (Qeq_bool (confidence det04) q) eqn:E1,
      (Qeq_bool (confidence det09) q) eqn:E2,
      (Qeq_bool (confidence det06) q) eqn:E3; cbn; try lia;
      exfalso;
      repeat match goal with
             | H : Qeq_bool _ _ = true |- _ => apply Qeq_bool_iff in H
             end;
      unfold confidence, det04, det09, det06 in *; cbn in *; lra.
Defined.
End Suppression.

(** ** Connectivity: bare boards and symmetry *)

Section ConnectivityMore.
Implicit Types (b : bbox) (img : image).

Lemma elem_of_slice {A} (lo hi : Z) (l : list A) x :
  x ∈ Py.slice lo hi l → x ∈ l.
Proof.
  unfold Py.slice. intros Hx.
  eapply sublist_subseteq; [apply sublist_drop|].
  eapply sublist_subseteq; [apply sublist_take|done].
Qed.

Lemma filter_nil_all {A} (f : A → bool) (l : list A) :
  (∀ x, x ∈ l → f x = false) → List.filter f l = [].
Proof.
  induction l as [|x l IH]; intros H; cbn; [done|].
  rewrite H by left. apply IH. intros y Hy. apply H. by right.
Qed.

Lemma white_no_track img ya yb xa xb :
  no_track img → white (slice2 ya yb xa xb img) = [].
Proof.
  intros Hn. unfold white, slice2. apply filter_nil_all.
  intros v Hv%list_elem_of_In%in_concat.
  destruct Hv as (r & Hr%list_elem_of_In & Hv%list_elem_of_In).
  apply list_elem_of_fmap in Hr as (row & -> & Hrow).
  apply Z.ltb_ge. eapply Hn; by eapply elem_of_slice.
Qed.

Lemma get_track_mask_at_point_no_track img x y margin :
  no_track img → get_track_mask_at_point img x y margin = false.
Proof.
  intros Hn. unfold get_track_mask_at_point.
  rewrite white_no_track by done. apply bool_decide_eq_false.
  intros H. by apply H.
Qed.

Lemma track_hits_no_track img points :
  no_track img → track_hits img points = 0.
Proof.
  intros Hn. unfold track_hits. rewrite filter_nil_all; [done|].
  intros p _. by apply get_track_mask_at_point_no_track.
Qed.

Lemma check_track_component_overlap_no_track img b (n : nat) (r : Q) :
  no_track img → (0 < r)%Q →
  check_track_component_overlap img b n r = Some false.
Proof.
  intros Hn Hr. unfold check_track_component_overlap.
  rewrite track_hits_no_track by done.
  destruct (points_to_check b n) as [|p ps] eqn:E; [done|].
  rewrite truediv_nat by done. cbn. do 2 f_equal.
  apply Qle_bool_false_iff.
  assert ((inject_Z (Z.of_nat 0) / inject_Z (Z.of_nat (length (p :: ps)))
           == 0)%Q) as -> by (unfold Qdiv; cbn; ring).
  done.
Qed.

Lemma are_components_connected_no_track img comp1 comp2 :
  no_track img → are_components_connected comp1 comp2 img = Some false.
Proof.
  intros Hn. unfold are_components_connected.
  by rewrite !check_track_component_overlap_no_track.
Qed.

(** On a mask without a track no component touches a track, whatever the
    number of sample points and the (positive) ratio asked for, and no
    two components are connected. *)
Theorem no_track_no_connection img :
  no_track img →
  (∀ b (sample_points : nat) (min_hit_ratio : Q),
      (0 < min_hit_ratio)%Q →
      check_track_component_overlap img b sample_points min_hit_ratio
      = Some false)
  ∧ ∀ comp1 comp2, are_components_connected comp1 comp2 img = Some false.
Proof.
  intros Hn. split.
  - intros b n r Hr. by apply check_track_component_overlap_no_track.
  - intros comp1 comp2. by apply are_components_connected_no_track.
Qed.

Lemma no_track_no_connection_witness :
  are_components_connected (comp_at "R1" 20 20) (comp_at "R2" 70 20)
    bare_board = Some false.
Proof.
  apply (no_track_no_connection bare_board).
  intros row v Hrow Hv. unfold bare_board in Hrow.
  apply elem_of_replicate in Hrow as [-> _].
  apply elem_of_replicate in Hv as [-> _]. lia.
Defined.

Lemma Qle_bool_proper (a a' b b' : Q) :
  (a == a')%Q → (b == b')%Q → Qle_bool a b = Qle_bool a' b'.
Proof.
  intros Ha Hb. apply eq_true_iff_eq. rewrite !Qle_bool_iff.
  by rewrite Ha, Hb.
Qed.

Lemma continuity_roi_sym b1 b2 img :
  continuity_roi b1 b2 img = continuity_roi b2 b1 img.
Proof.
  unfold continuity_roi.
  by rewrite (Z.min_comm (Py.int (bx b1))), (Z.max_comm (Py.int (bx b1))),
    (Z.min_comm (Py.int (by_ b1))), (Z.max_comm (Py.int (by_ b1))).
Qed.

(** The connectivity test does not depend on the order of the two
    components. *)
Theorem are_components_connected_sym (comp1 comp2 : component) img :
  are_components_connected comp1 comp2 img
  = are_components_connected comp2 comp1 img.
Proof.
  unfold are_components_connected.
  rewrite !check_track_component_overlap_ratio. cbn [mbind option_bind].
  rewrite (andb_comm (Qle_bool _ (hit_ratio img (comp_bbox comp1)))).
  unfold check_track_continuity.
  rewrite (continuity_roi_sym (comp_bbox comp1) (comp_bbox comp2)).
  replace (Py.sqrt_lt
             ((bx (comp_bbox comp2) - bx (comp_bbox comp1)) ^ 2
              + (by_ (comp_bbox comp2) - by_ (comp_bbox comp1)) ^ 2) 140)
    with (Py.sqrt_lt
            ((bx (comp_bbox comp1) - bx (comp_bbox comp2)) ^ 2
             + (by_ (comp_bbox comp1) - by_ (comp_bbox comp2)) ^ 2) 140);
    [done|].
  unfold Py.sqrt_lt, Py.Qlt_bool. do 2 f_equal.
  apply Qle_bool_proper; [done|]. ring.
Qed.
End ConnectivityMore.

(** ** Generated identifiers: the numbers *)

Section Numbering.
Implicit Types (counters : gmap string nat) (class_names : list string).

Lemma get_generic_ids_numbers class_names counters :
  has_counters counters →
  ∃ ids counters',
    get_generic_ids class_names counters = Some (ids, counters')
    ∧ length ids = length class_names
    ∧ ∀ i c, class_names !! i = Some c →
        ids !! i
        = Some (prefix_of c
                +:+ pretty (default 0 (counters !! key_of c)
                            + occurrences (key_of c)
                                (take (S i) class_names))).
Proof.
  revert counters.
  induction class_names as [|c0 cs IH]; intros counters Hc.
  - exists [], counters. split; [done|]. split; [done|].
    intros i c Hi. by destruct i.
  - cbn [get_generic_ids].
    destruct (get_generic_id_spec c0 counters Hc)
      as (key & prefix & n & Hcl & _ & Hn & ->); cbn.
    destruct (IH (<[key := S n]> counters))
      as (ids & counters' & -> & Hlen & Hids);
      [by apply has_counters_insert|]; cbn.
    eexists _, _. split; [done|]. split; [cbn; by rewrite Hlen|].
    assert (Hk0 : key_of c0 = key) by (unfold key_of; by rewrite Hcl).
    assert (Hp0 : prefix_of c0 = prefix) by (unfold prefix_of; by rewrite Hcl).
    intros [|i] c Hi.
    + injection Hi as <-. cbn. rewrite Hk0, Hp0, Hn.
      rewrite bool_decide_eq_true_2 by done. rewrite take_0. cbn.
      by rewrite Nat.add_1_r.
    + cbn in Hi. rewrite lookup_cons. rewrite (Hids i c Hi).
      unfold occurrences.
      rewrite lookup_insert, Hk0.
      destruct (decide (key = key_of c)) as [Hk|Hk].
      * rewrite bool_decide_eq_true_2 by done. rewrite <- Hk, Hn. cbn.
        by rewrite Nat.add_succ_r.
      * by rewrite bool_decide_eq_false_2 by done.
Qed.

(** After [reset_counters], the identifier returned for the class name
    at position [i] of a run is the prefix of its class followed by the
    number of class names up to and including this one that select the
    same counter: the numbering starts at 1 for every prefix, and has no
    gap. *)
Theorem generic_ids_numbering counters class_names :
  reachable counters →
  ∃ ids counters',
    get_generic_ids class_names (reset_counters counters)
    = Some (ids, counters')
    ∧ length ids = length class_names
    ∧ ∀ i c, class_names !! i = Some c →
        ids !! i
        = Some (prefix_of c
                +:+ pretty (occurrences (key_of c) (take (S i) class_names))).
Proof.
  intros Hc%reachable_has_counters%has_counters_reset.
  destruct (get_generic_ids_numbers class_names _ Hc)
    as (ids & counters' & Hrun & Hlen & Hids).
  exists ids, counters'. split; [done|]. split; [done|].
  intros i c Hi. rewrite (Hids i c Hi). do 3 f_equal.
  destruct (Hc (key_of c) (prefix_of c)) as [n Hn].
  { unfold key_of, prefix_of. rewrite <- surjective_pairing.
    apply classify_table. }
  rewrite Hn. by apply reset_counters_zero in Hn as ->.
Qed.

Lemma generic_ids_numbering_witness :
  ∃ ids counters',
    get_generic_ids ["Resistor"; "IC"; "resistor"; "LED"; "Capacitor"]
      (reset_counters component_counters)
    = Some (ids, counters')
    ∧ length ids = 5
    ∧ ∀ i c, ["Resistor"; "IC"; "resistor"; "LED"; "Capacitor"] !! i
             = Some c →
        ids !! i
        = Some (prefix_of c
                +:+ pretty (occurrences (key_of c)
                              (take (S i) ["Resistor"; "IC"; "resistor";
                                           "LED"; "Capacitor"]))).
Proof.
  apply (generic_ids_numbering component_counters). constructor.
Defined.
End Numbering.

(** ** CircuitGraph: the graph and the netlist agree *)

Section Built.
Implicit Types (G : nx_graph) (g : CircuitGraph) (a b u v : string).

Lemma touch_node_well_formed n G :
  well_formed G → well_formed (touch_node n G).
Proof.
  intros Hw m. unfold touch_node. destruct (_node G !! n) eqn:E; [done|].
  cbn. rewrite !lookup_insert. case_decide; [by split; eexists|done].
Qed.

Lemma touch_node_adjacent n G u v :
  well_formed G → adjacent (touch_node n G) u v ↔ adjacent G u v.
Proof.
  intros Hw. unfold touch_node, adjacent.
  destruct (_node G !! n) eqn:E; [done|]. cbn.
  rewrite lookup_insert. case_decide as E'; [|done]. subst u. cbn.
  destruct (_adj G !! n) eqn:E''; [|done].
  assert (is_Some (_node G !! n)) as [? ?] by (apply Hw; by eexists).
  congruence.
Qed.

Lemma touch_node_nodes n G :
  dom (_node (touch_node n G)) = {[n]} ∪ dom (_node G).
Proof.
  unfold touch_node. destruct (_node G !! n) eqn:E; cbn.
  - apply elem_of_dom_2 in E. set_solver.
  - by rewrite dom_insert_L.
Qed.

Lemma add_edge_well_formed u v G :
  well_formed G → well_formed (add_edge u v G).
Proof.
  intros Hw%(touch_node_well_formed u)%(touch_node_well_formed v) m.
  unfold add_edge; cbn. rewrite !lookup_insert.
  pose proof (touch_node_node v (touch_node u G)) as Hv.
  pose proof (touch_node_mono v u (touch_node u G) (touch_node_node u G))
    as Hu.
  repeat case_decide; subst; try done; by split; [|eexists].
Qed.

Lemma add_edge_adjacent u v G x y :
  well_formed G →
  adjacent (add_edge u v G) x y
  ↔ adjacent G x y ∨ (x = u ∧ y = v) ∨ (x = v ∧ y = u).
Proof.
  intros Hw.
  rewrite <- (touch_node_adjacent u G x y) by done.
  rewrite <- (touch_node_adjacent v (touch_node u G) x y)
    by by apply touch_node_well_formed.
  unfold add_edge, adjacent; cbn.
  generalize (_adj (touch_node v (touch_node u G))). intros A.
  rewrite !lookup_insert.
  repeat case_decide; subst; cbn; set_solver.
Qed.

Lemma add_edge_nodes u v G :
  dom (_node (add_edge u v G)) = {[u; v]} ∪ dom (_node G).
Proof.
  unfold add_edge; cbn. rewrite !touch_node_nodes. set_solver.
Qed.

Lemma add_node_well_formed n t (bb : bbox) G :
  well_formed G → well_formed (add_node n t bb G).
Proof.
  intros Hw m. unfold add_node; cbn.
  destruct (_adj G !! n) eqn:E; rewrite !lookup_insert.
  - case_decide; [subst|done]. split; [by eexists|]. by rewrite E.
  - case_decide; [by split; eexists|done].
Qed.

Lemma add_node_adjacent n t (bb : bbox) G u v :
  adjacent (add_node n t bb G) u v ↔ adjacent G u v.
Proof.
  unfold add_node, adjacent; cbn. destruct (_adj G !! n) eqn:E; [done|].
  rewrite lookup_insert. case_decide; [subst|done]. by rewrite E.
Qed.

Lemma add_connection_spec a b g :
  ∃ g', add_connection a b g = Some g'
        ∧ components g' = components g
        ∧ (∀ s, s ∈ connections g'
                ↔ s ∈ connections g ∨ (a ≠ b ∧ s = connection_str a b))
        ∧ nodes g' = (if decide (a = b) then ∅ else {[a; b]}) ∪ nodes g.
Proof.
  unfold add_connection, nodes.
  destruct (decide (a ≠ b)) as [Hne|Heq].
  - eexists. split; [done|]. cbn. split; [done|]. split.
    + intros s. case_decide as Hin.
      * rewrite elem_of_app, list_elem_of_singleton. naive_solver.
      * destruct (decide (connection_str a b ∈ connections g)); [|done].
        split; [by left|]. intros [?|[_ ->]]; done.
    + rewrite decide_False by done. apply add_edge_nodes.
  - destruct (decide (a = b)) as [<-|]; [|done].
    exists g. split; [done|].
    split; [done|]. split; [naive_solver|].
    set_solver.
Qed.

Lemma add_connection_consistent a b g g' :
  consistent g → add_connection a b g = Some g' → consistent g'.
Proof.
  intros Hc Hadd. unfold add_connection in Hadd.
  destruct (decide (a ≠ b)) as [Hne|Heq]; [|by injection Hadd as <-].
  injection Hadd as <-.
  destruct Hc as [Hwf Hsym Hirr Hnod Hcomp Hnd Hna Han].
  assert (Hadj := λ x y, add_edge_adjacent a b (graph g) x y Hwf).
  assert (Hmono : ∀ s, s ∈ connections g →
      s ∈ (if decide (connection_str a b ∉ connections g)
           then connections g ++ [connection_str a b]
           else connections g)).
  { intros s Hs. case_decide; [|done]. apply elem_of_app. by left. }
  assert (Hnew : connection_str a b ∈
      (if decide (connection_str a b ∉ connections g)
       then connections g ++ [connection_str a b]
       else connections g)).
  { case_decide as Hin.
    - apply elem_of_app. right. by left.
    - by destruct (decide (connection_str a b ∈ connections g)). }
  constructor; unfold nodes in *; cbn [graph components connections].
  - by apply add_edge_well_formed.
  - intros u v. rewrite !Hadj. naive_solver.
  - intros u. rewrite Hadj. intros [?|[[-> ?]|[-> ?]]]; [by eapply Hirr|done..].
  - intros u v. rewrite Hadj, add_edge_nodes.
    intros [?%Hnod|[[-> _]|[-> _]]]; set_solver.
  - intros c Hc%Hcomp. rewrite add_edge_nodes. set_solver.
  - case_decide as Hin; [|done]. apply NoDup_app. split; [done|].
    split; [|apply NoDup_singleton].
    intros s Hs Hs'%list_elem_of_singleton. by subst s.
  - intros s Hs. case_decide as Hin.
    + apply elem_of_app in Hs as [Hs|Hs%list_elem_of_singleton];
        [|subst s].
      * destruct (Hna s Hs) as (x & y & -> & Hxy & Hadjxy).
        exists x, y. rewrite Hadj. naive_solver.
      * exists a, b. rewrite Hadj. naive_solver.
    + destruct (Hna s Hs) as (x & y & -> & Hxy & Hadjxy).
      exists x, y. rewrite Hadj. naive_solver.
  - intros u v. rewrite Hadj. intros [H|[[-> ->]|[-> ->]]].
    + destruct (Han u v H); [left|right]; by apply Hmono.
    + by left.
    + by right.
Qed.

Lemma add_component_consistent cid t (bb : bbox) g g' :
  consistent g → add_component cid t bb g = Some g' → consistent g'.
Proof.
  intros Hc [= <-].
  destruct Hc as [Hwf Hsym Hirr Hnod Hcomp Hnd Hna Han].
  assert (Hadj := add_node_adjacent cid t bb (graph g)).
  assert (Hnodes : ∀ n, n ∈ nodes g →
            n ∈ dom (<[cid := NodeAttrs (Some t) (Some bb)]>
                       (_node (graph g)))).
  { intros n Hn. rewrite dom_insert_L. set_solver. }
  constructor; cbn.
  - by apply add_node_well_formed.
  - intros u v. rewrite !Hadj. apply Hsym.
  - intros u. rewrite Hadj. apply Hirr.
  - intros u v. rewrite Hadj. intros H%Hnod. by apply Hnodes.
  - intros c [Hin|Hin%list_elem_of_singleton]%elem_of_app; [|subst c].
    + by apply Hnodes, Hcomp.
    + unfold nodes; cbn. rewrite dom_insert_L. set_solver.
  - done.
  - intros s Hs. destruct (Hna s Hs) as (x & y & -> & Hxy & Hadjxy).
    exists x, y. by rewrite Hadj.
  - intros u v. rewrite Hadj. apply Han.
Qed.

Lemma new_graph_consistent : consistent new_graph.
Proof.
  constructor; cbn; unfold adjacent; cbn; try set_solver.
  - intros n. rewrite !lookup_empty. by split; intros [? ?].
  - constructor.
Qed.

(** In every graph that the methods build, the networkx graph is
    symmetric and has no loop, its edges join nodes, every component of
    the list is a node, no line of the netlist occurs twice, every line
    of the netlist is ["a -- b"] for an edge between different nodes, and
    every edge has a line in one of the two orders. *)
Theorem built_consistent g : built g → consistent g.
Proof.
  induction 1 as [|g g' cid t bb _ IH Hadd|g g' a b _ IH Hadd].
  - apply new_graph_consistent.
  - by eapply add_component_consistent.
  - by eapply add_connection_consistent.
Qed.

Lemma built_consistent_witness : consistent graph_R1.
Proof.
  apply built_consistent.
  by apply (built_component new_graph _ "R1" "Resistor" sample_bbox);
    [constructor|].
Defined.
End Built.

(** ** build_circuit_graph: components, nodes and netlist *)

Section Build.
Implicit Types (g : CircuitGraph) (comps : list component) (img : image).
Implicit Types (c : component) (s : string).

Lemma are_components_connected_total c1 c2 img :
  ∃ r, are_components_connected c1 c2 img = Some r.
Proof.
  unfold are_components_connected.
  rewrite !check_track_component_overlap_ratio. cbn [mbind option_bind].
  destruct (negb _); [by eexists|].
  destruct (Py.sqrt_lt _ _); [|by eexists].
  rewrite check_track_continuity_fraction. by eexists.
Qed.

Lemma component_ids_cons c comps :
  component_ids (c :: comps) = {[id c]} ∪ component_ids comps.
Proof. done. Qed.

Lemma add_components_spec comps g :
  ∃ g', add_components comps g = Some g'
        ∧ components g' = components g ++ comps
        ∧ connections g' = connections g
        ∧ nodes g' = nodes g ∪ component_ids comps
        ∧ (consistent g → consistent g').
Proof.
  revert g. induction comps as [|c comps IH]; intros g.
  - exists g. split; [done|]. split; [by rewrite app_nil_r|].
    split; [done|]. split; [|done]. unfold component_ids; cbn.
    by rewrite (right_id_L ∅ (∪)).
  - cbn [add_components].
    destruct (add_component (id c) (type c) (comp_bbox c) g) as [g1|] eqn:E;
      [|done].
    destruct (IH g1) as (g' & Hg' & Hcomps & Hconn & Hnodes & Hcons).
    exists g'. split; [done|].
    pose proof E as E'. injection E' as <-.
    cbn [components connections graph] in *.
    split; [rewrite Hcomps, <- app_assoc; by destruct c|].
    split; [done|]. split.
    + rewrite Hnodes, component_ids_cons. unfold nodes, add_node.
      cbn [graph _node]. rewrite dom_insert_L. clear. set_solver.
    + intros Hc. apply Hcons. by eapply add_component_consistent.
Qed.

(** The connections that the inner loop makes for [c1], of index [i],
    with the components [comps] of the indices from [j] on. *)
Lemma connect_row_spec img (i : nat) c1 (j : nat) comps g :
  ∃ g', connect_row img i c1 j comps g = Some g'
        ∧ components g' = components g
        ∧ (∀ s, s ∈ connections g'
                ↔ s ∈ connections g
                  ∨ ∃ k c2, comps !! k = Some c2 ∧ i < j + k
                            ∧ id c1 ≠ id c2
                            ∧ are_components_connected c1 c2 img = Some true
                            ∧ s = connection_str (id c1) (id c2))
        ∧ (id c1 ∈ nodes g → component_ids comps ⊆ nodes g →
           nodes g' = nodes g)
        ∧ (consistent g → consistent g').
Proof.
  revert j g. induction comps as [|c2 comps IH]; intros j g.
  - exists g. split; [done|]. split; [done|]. split; [|done].
    intros s. split; [by left|]. intros [?|(k & c2 & Hk & _)]; [done|].
    by destruct k.
  - cbn [connect_row]. destruct (j <=? i) eqn:Hji.
    + apply Nat.leb_le in Hji.
      destruct (IH (S j) g) as (g' & -> & Hcomps & Hconn & Hnodes & Hcons).
      exists g'. split; [done|]. split; [done|]. split; [|split; [|done]].
      * intros s. rewrite Hconn. split; (intros [?|H]; [by left|right]).
        -- destruct H as (k & c & Hk & Hlt & H). exists (S k), c.
           split; [done|]. split; [lia|done].
        -- destruct H as ([|k] & c & Hk & Hlt & H); [lia|].
           exists k, c. split; [done|]. split; [lia|done].
      * intros H1 H2. apply Hnodes; [done|].
        rewrite component_ids_cons in H2. clear -H2. set_solver.
    + apply Nat.leb_gt in Hji.
      destruct (are_components_connected_total c1 c2 img) as [r Hr].
      rewrite Hr. cbn [mbind option_bind].
      assert (∃ g1, (if r then add_connection (id c1) (id c2) g else Some g)
                    = Some g1
                    ∧ components g1 = components g
                    ∧ (∀ s, s ∈ connections g1
                            ↔ s ∈ connections g
                              ∨ (r = true ∧ id c1 ≠ id c2
                                 ∧ s = connection_str (id c1) (id c2)))
                    ∧ (id c1 ∈ nodes g → id c2 ∈ nodes g →
                       nodes g1 = nodes g)
                    ∧ (consistent g → consistent g1))
        as (g1 & -> & Hcomps1 & Hconn1 & Hnodes1 & Hcons1).
      { destruct r.
        - destruct (add_connection_spec (id c1) (id c2) g)
            as (g1 & Hg1 & ? & Hconn1 & Hnodes1).
          exists g1. split; [done|]. split; [done|]. split; [|split].
          + intros s. rewrite Hconn1. naive_solver.
          + intros H1 H2. rewrite Hnodes1. clear -H1 H2.
            case_decide; set_solver.
          + intros Hc. by eapply add_connection_consistent.
        - exists g. split; [done|]. split; [done|]. split; [|done].
          naive_solver. }
      cbn [mbind option_bind].
      destruct (IH (S j) g1) as (g' & -> & Hcomps & Hconn & Hnodes & Hcons).
      exists g'. split; [done|]. split; [congruence|].
      split; [|split; [|by auto]].
      * intros s. rewrite Hconn, Hconn1. split.
        -- intros [[?|(-> & Hne & ->)]|H]; [by left|right..].
           ++ exists 0, c2. split; [done|]. split; [lia|done].
           ++ destruct H as (k & c & Hk & Hlt & H). exists (S k), c.
              split; [done|]. split; [lia|done].
        -- intros [?|H]; [by left; left|].
           destruct H as ([|k] & c & Hk & Hlt & Hne & Hconn' & ->).
           ++ injection Hk as <-. left. right.
              split; [congruence|done].
           ++ right. exists k, c. split; [done|]. split; [lia|done].
      * intros H1 H2. rewrite component_ids_cons in H2.
        assert (id c2 ∈ nodes g) by (clear -H2; set_solver).
        rewrite Hnodes; rewrite Hnodes1; try done.
        clear -H2. set_solver.
Qed.

(** The connections that the outer loop makes for the components
    [comps] of the indices from [i] on, each against the whole list. *)
Lemma connect_rows_spec img (all : list component) (i : nat) comps g :
  ∃ g', connect_rows img all i comps g = Some g'
        ∧ components g' = components g
        ∧ (∀ s, s ∈ connections g'
                ↔ s ∈ connections g
                  ∨ ∃ k j c1 c2, comps !! k = Some c1 ∧ all !! j = Some c2
                                 ∧ i + k < j ∧ id c1 ≠ id c2
                                 ∧ are_components_connected c1 c2 img
                                   = Some true
                                 ∧ s = connection_str (id c1) (id c2))
        ∧ (component_ids comps ⊆ nodes g → component_ids all ⊆ nodes g →
           nodes g' = nodes g)
        ∧ (consistent g → consistent g').
Proof.
  revert i g. induction comps as [|c1 comps IH]; intros i g.
  - exists g. split; [done|]. split; [done|]. split; [|done].
    intros s. split; [by left|]. intros [?|(k & j & c1 & c2 & Hk & _)]; [done|].
    by destruct k.
  - cbn [connect_rows].
    destruct (connect_row_spec img i c1 0 all g)
      as (g1 & -> & Hcomps1 & Hconn1 & Hnodes1 & Hcons1).
    cbn [mbind option_bind].
    destruct (IH (S i) g1) as (g' & -> & Hcomps & Hconn & Hnodes & Hcons).
    exists g'. split; [done|]. split; [congruence|].
    split; [|split; [|by auto]].
    + intros s. rewrite Hconn, Hconn1. split.
      * intros [[?|H]|H]; [by left|right..].
        -- destruct H as (j & c2 & Hj & Hlt & H). exists 0, j, c1, c2.
           split; [done|]. split; [done|]. split; [lia|done].
        -- destruct H as (k & j & c & c2 & Hk & Hj & Hlt & H).
           exists (S k), j, c, c2.
           split; [done|]. split; [done|]. split; [lia|done].
      * intros [?|H]; [by left; left|].
        destruct H as ([|k] & j & c & c2 & Hk & Hj & Hlt & H).
        -- injection Hk as <-. left. right. exists j, c2.
           split; [done|]. split; [lia|done].
        -- right. exists k, j, c, c2.
           split; [done|]. split; [done|]. split; [lia|done].
    + intros H1 H2. rewrite component_ids_cons in H1.
      assert (id c1 ∈ nodes g) by (clear -H1; set_solver).
      rewrite Hnodes; rewrite Hnodes1; try done.
      clear -H1. set_solver.
Qed.

Lemma build_circuit_graph_spec comps img :
  ∃ g, build_circuit_graph comps img = Some g
       ∧ components g = comps
       ∧ nodes g = component_ids comps
       ∧ (∀ s, s ∈ connections g ↔ linked img comps s)
       ∧ consistent g.
Proof.
  unfold build_circuit_graph.
  destruct (add_components_spec comps new_graph)
    as (g0 & -> & Hcomps0 & Hconn0 & Hnodes0 & Hcons0).
  cbn [mbind option_bind].
  destruct (connect_rows_spec img comps 0 comps g0)
    as (g & -> & Hcomps & Hconn & Hnodes & Hcons).
  assert (Hn0 : nodes g0 = component_ids comps).
  { rewrite Hnodes0. unfold nodes; cbn. rewrite dom_empty_L.
    by rewrite (left_id_L ∅ (∪)). }
  exists g. split; [done|]. split; [by rewrite Hcomps, Hcomps0|].
  split; [|split].
  - rewrite Hnodes; [done|by rewrite Hn0..].
  - intros s. rewrite Hconn, Hconn0.
    change (connections new_graph) with (@nil string). unfold linked. split.
    + intros [[]%elem_of_nil|(k & j & c1 & c2 & Hk & Hj & Hlt & H)].
      by exists k, j, c1, c2.
    + intros (i & j & c1 & c2 & Hlt & Hi & Hj & H). right.
      by exists i, j, c1, c2.
  - apply Hcons, Hcons0, new_graph_consistent.
Qed.

(** [build_circuit_graph] never raises.  The graph it returns lists the
    components as given (with the three keys it copies), has their
    identifiers as its nodes, and its netlist holds exactly the lines
    ["a -- b"] for two components of different identifiers, [a] before
    [b] in the list, that the connectivity test accepts. *)
Theorem build_circuit_graph_netlist comps img :
  ∃ g, build_circuit_graph comps img = Some g
       ∧ get_component_list g = comps
       ∧ nodes g = component_ids comps
       ∧ ∀ s, s ∈ get_netlist g ↔ linked img comps s.
Proof.
  destruct (build_circuit_graph_spec comps img) as (g & ? & ? & ? & ? & _).
  by exists g.
Qed.

(** In the graph that [build_circuit_graph] returns the two records of
    the connections agree: the graph is symmetric and without loop on
    the components, the netlist has no line twice, every line of it is
    an edge, and every edge has a line. *)
Theorem build_circuit_graph_consistent comps img :
  ∃ g, build_circuit_graph comps img = Some g ∧ consistent g.
Proof.
  destruct (build_circuit_graph_spec comps img) as (g & ? & _ & _ & _ & ?).
  by exists g.
Qed.

(** On a mask without a track the netlist is empty and the graph has no
    edge. *)
Theorem build_circuit_graph_no_track comps img :
  no_track img →
  ∃ g, build_circuit_graph comps img = Some g
       ∧ get_netlist g = []
       ∧ ∀ u v, ¬ adjacent (graph g) u v.
Proof.
  intros Hn.
  destruct (build_circuit_graph_spec comps img)
    as (g & Hg & _ & _ & Hnet & Hcons).
  exists g. split; [done|].
  assert (Hnil : connections g = []).
  { apply elem_of_nil_inv. intros s Hs. apply Hnet in Hs.
    destruct Hs as (i & j & c1 & c2 & _ & _ & _ & _ & Hc & _).
    by rewrite are_components_connected_no_track in Hc. }
  split; [done|]. intros u v Huv.
  destruct (adjacent_netlist g Hcons u v Huv) as [H|H];
    rewrite Hnil in H; by apply elem_of_nil in H.
Qed.

Lemma build_circuit_graph_no_track_witness :
  ∃ g, build_circuit_graph [comp_at "R1" 20 20; comp_at "R2" 70 20]
         bare_board = Some g
       ∧ get_netlist g = []
       ∧ ∀ u v, ¬ adjacent (graph g) u v.
Proof.
  apply build_circuit_graph_no_track.
  intros row v Hrow Hv. unfold bare_board in Hrow.
  apply elem_of_replicate in Hrow as [-> _].
  apply elem_of_replicate in Hv as [-> _]. lia.
Defined.
End Build.

(** ** Slicing: the tiles *)

Section Tiles.
Implicit Types (t : tile) (x y : Z).
Local Open Scope Z_scope.

Lemma elem_of_range stop step x :
  0 < step →
  x ∈ range stop step ↔ ∃ k, 0 <= k ∧ x = k * step ∧ x < stop.
Proof.
  intros Hstep. unfold range, Py.floordiv.
  rewrite list_elem_of_fmap. split.
  - intros (k & -> & Hk%elem_of_seq). exists (Z.of_nat k).
    split; [lia|]. split; [done|].
    assert (Z.of_nat k < (stop + step - 1) `div` step) as Hlt by lia.
    assert (Z.of_nat k + 1 <= (stop + step - 1) `div` step) as Hle by lia.
    assert ((Z.of_nat k + 1) * step <= stop + step - 1); [|lia].
    etrans; [apply Z.mul_le_mono_nonneg_r; [lia|exact Hle]|].
    rewrite Z.mul_comm. apply Z.mul_div_le. lia.
  - intros (k & Hk & -> & Hlt). exists (Z.to_nat k).
    split; [by rewrite Z2Nat.id|]. apply elem_of_seq.
    split; [lia|]. cbn.
    assert (k + 1 <= (stop + step - 1) `div` step); [|lia].
    apply Z.div_le_lower_bound; [done|]. nia.
Qed.

Lemma tile_start_cases slice_size extent start :
  (tile_start slice_size extent start = start
   ∧ (start + slice_size <= extent ∨ extent <= slice_size))
  ∨ (tile_start slice_size extent start = extent - slice_size
     ∧ extent < start + slice_size ∧ slice_size < extent).
Proof.
  unfold tile_start.
  destruct (Z.ltb_spec (Z.min (start + slice_size) extent - start)
              slice_size);
    destruct (Z.ltb_spec slice_size extent); cbn [andb]; lia.
Qed.

Lemma tile_start_stop slice_size extent start :
  Z.min (tile_start slice_size extent start + slice_size) extent
  = Z.min (start + slice_size) extent.
Proof.
  destruct (tile_start_cases slice_size extent start)
    as [[-> _]|(-> & ? & ?)]; lia.
Qed.

Lemma tile_start_idem slice_size extent start :
  tile_start slice_size extent (tile_start slice_size extent start)
  = tile_start slice_size extent start.
Proof.
  destruct (tile_start_cases slice_size extent start)
    as [[E _]|(E & ? & ?)]; rewrite !E; [done|].
  destruct (tile_start_cases slice_size extent (extent - slice_size))
    as [[E' _]|(_ & ? & ?)]; [done|lia].
Qed.

(** The change of [top] inside the inner loop does not show in the
    tiles of the row: each is the tile of the loop's own [top]. *)
Lemma row_tiles_tile_at slice_size img_width img_height top lefts :
  row_tiles slice_size img_width img_height top lefts
  = tile_at slice_size img_width img_height top <$> lefts.
Proof.
  revert top. induction lefts as [|left0 lefts IH]; intros top; [done|].
  cbn [row_tiles fmap list_fmap]. f_equal.
  fold (tile_start slice_size img_height top). rewrite IH.
  apply list_fmap_ext. intros _ left1 _. unfold tile_at.
  by rewrite tile_start_idem, tile_start_stop.
Qed.

Lemma elem_of_tile_boxes slice_size step img_width img_height t :
  t ∈ tile_boxes slice_size step img_width img_height
  ↔ ∃ top left, top ∈ range img_height step ∧ left ∈ range img_width step
                ∧ t = tile_at slice_size img_width img_height top left.
Proof.
  unfold tile_boxes. rewrite list_elem_of_In, in_concat. split.
  - intros (row & Hrow%list_elem_of_In & Ht%list_elem_of_In).
    apply list_elem_of_fmap in Hrow as (top & -> & ?).
    rewrite row_tiles_tile_at in Ht.
    apply list_elem_of_fmap in Ht as (left0 & -> & ?). by exists top, left0.
  - intros (top & left0 & Htop & Hleft & ->).
    exists (row_tiles slice_size img_width img_height top
              (range img_width step)).
    split; apply list_elem_of_In.
    + by apply (list_elem_of_fmap_2
                  (λ top, row_tiles slice_size img_width img_height top
                            (range img_width step))).
    + rewrite row_tiles_tile_at. by apply list_elem_of_fmap_2.
Qed.

Lemma tile_start_bounds slice_size extent start :
  0 < slice_size → 0 <= start < extent →
  let a := tile_start slice_size extent start in
  let b := Z.min (start + slice_size) extent in
  0 <= a <= start ∧ a < b <= extent ∧ b - a <= slice_size
  ∧ (slice_size < extent → b - a = slice_size).
Proof.
  intros HS Hstart. cbn zeta.
  destruct (tile_start_cases slice_size extent start)
    as [[-> ?]|(-> & ? & ?)]; lia.
Qed.

(** Every tile is a non-empty rectangle inside the image, at most
    [slice_size] wide and high; along an axis on which the image is
    larger than [slice_size] its extent is exactly [slice_size]. *)
Theorem tile_boxes_in_image slice_size step img_width img_height t :
  0 < slice_size → 0 < step →
  t ∈ tile_boxes slice_size step img_width img_height →
  (0 <= t_left t < t_right t ∧ t_right t <= img_width)
  ∧ (0 <= t_top t < t_bottom t ∧ t_bottom t <= img_height)
  ∧ t_right t - t_left t <= slice_size
  ∧ t_bottom t - t_top t <= slice_size
  ∧ (slice_size < img_width → t_right t - t_left t = slice_size)
  ∧ (slice_size < img_height → t_bottom t - t_top t = slice_size).
Proof.
  intros HS Hstep (top & left0 & Htop & Hleft & ->)%elem_of_tile_boxes.
  apply elem_of_range in Htop as (k & Hk & -> & Hlt); [|done].
  apply elem_of_range in Hleft as (k' & Hk' & -> & Hlt'); [|done].
  pose proof (tile_start_bounds slice_size img_width (k' * step) HS) as Hx.
  pose proof (tile_start_bounds slice_size img_height (k * step) HS) as Hy.
  cbn zeta in Hx, Hy. unfold tile_at; cbn [t_left t_top t_right t_bottom].
  destruct Hx as (? & ? & ? & ?); [nia|].
  destruct Hy as (? & ? & ? & ?); [nia|].
  repeat split; try lia; auto.
Qed.

Lemma tile_boxes_in_image_witness :
  let t := Tile 360 260 1000 900 in
  (0 <= t_left t < t_right t ∧ t_right t <= 1000)
  ∧ (0 <= t_top t < t_bottom t ∧ t_bottom t <= 900)
  ∧ t_right t - t_left t <= SLICE_SIZE
  ∧ t_bottom t - t_top t <= SLICE_SIZE
  ∧ (SLICE_SIZE < 1000 → t_right t - t_left t = SLICE_SIZE)
  ∧ (SLICE_SIZE < 900 → t_bottom t - t_top t = SLICE_SIZE).
Proof.
  apply (tile_boxes_in_image SLICE_SIZE
           (slice_step SLICE_SIZE OVERLAP_RATIO) 1000 900).
  - done.
  - by vm_compute.
  - vm_compute. do 3 right. left.
Defined.

Lemma range_covers stop step x :
  0 < step → 0 <= x < stop →
  ∃ start, start ∈ range stop step ∧ start <= x < start + step.
Proof.
  intros Hstep Hx. exists (x `div` step * step).
  pose proof (Z.mul_div_le x step Hstep).
  pose proof (Z.mul_succ_div_gt x step Hstep).
  split; [|lia].
  apply elem_of_range; [done|]. exists (x `div` step).
  split; [apply Z.div_pos; lia|]. split; [done|]. lia.
Qed.

(** When the step is not larger than the tile, the tiles cover the
    image: every pixel lies in a tile. *)
Theorem tile_boxes_cover slice_size step img_width img_height x y :
  0 < step <= slice_size →
  0 <= x < img_width → 0 <= y < img_height →
  ∃ t, t ∈ tile_boxes slice_size step img_width img_height ∧ in_tile t x y.
Proof.
  intros [Hstep HS] Hx Hy.
  destruct (range_covers img_width step x Hstep Hx) as (left0 & Hleft & Hl).
  destruct (range_covers img_height step y Hstep Hy) as (top & Htop & Ht).
  exists (tile_at slice_size img_width img_height top left0).
  split; [apply elem_of_tile_boxes; by exists top, left0|].
  pose proof (tile_start_bounds slice_size img_width left0) as Hbx.
  pose proof (tile_start_bounds slice_size img_height top) as Hby.
  cbn zeta in Hbx, Hby.
  apply elem_of_range in Hleft as (k' & Hk' & -> & Hlt'); [|done].
  apply elem_of_range in Htop as (k & Hk & -> & Hlt); [|done].
  unfold in_tile, tile_at; cbn [t_left t_top t_right t_bottom].
  destruct Hbx as (? & ? & ? & ?); [lia|nia|].
  destruct Hby as (? & ? & ? & ?); [lia|nia|].
  lia.
Qed.

Lemma tile_boxes_cover_witness :
  ∃ t, t ∈ tile_boxes SLICE_SIZE (slice_step SLICE_SIZE OVERLAP_RATIO)
             1000 900
       ∧ in_tile t 999 899.
Proof.
  apply tile_boxes_cover; [by vm_compute|lia..].
Defined.
End Tiles.

(** ** Detection: tiles, merge and the confidence filter *)

Section Detection.
Context (tile_step : tile → option (list prediction)).
Context (image_step : option (list prediction)).
Implicit Types (t : tile) (d p : prediction) (P ps : list prediction).

Lemma merge_tile_app (left top : Z) ps merged :
  merge_tile left top ps merged
  = merged ++ (merge_prediction left top <$> ps).
Proof.
  unfold merge_tile. revert merged.
  induction ps as [|p ps IH]; intros merged; cbn; [by rewrite app_nil_r|].
  by rewrite IH, <- app_assoc.
Qed.

Lemma merge_tiles_None tiles merged :
  merge_tiles tile_step tiles merged = None
  ↔ ∃ t, t ∈ tiles ∧ tile_step t = None.
Proof.
  revert merged. induction tiles as [|t tiles IH]; intros merged.
  - split; [done|]. by intros (t & Ht%elem_of_nil & _).
  - cbn [merge_tiles]. destruct (tile_step t) as [ps|] eqn:E; cbn.
    + rewrite IH. split; intros (t' & Ht' & Hn).
      * exists t'. split; [by right|done].
      * apply elem_of_cons in Ht' as [->|Ht']; [congruence|by exists t'].
    + split; [|done]. intros _. exists t. split; [by left|done].
Qed.

Lemma merge_tiles_elem tiles merged merged' d :
  merge_tiles tile_step tiles merged = Some merged' →
  d ∈ merged'
  ↔ d ∈ merged
    ∨ ∃ t ps p, t ∈ tiles ∧ tile_step t = Some ps ∧ p ∈ ps
                ∧ d = merge_prediction (t_left t) (t_top t) p.
Proof.
  revert merged. induction tiles as [|t tiles IH]; intros merged.
  - intros [= <-]. split; [by left|].
    by intros [?|(t & ps & p & Ht%elem_of_nil & _)].
  - cbn [merge_tiles]. destruct (tile_step t) as [ps|] eqn:E; [|done]. cbn.
    intros Hm. rewrite (IH _ Hm), merge_tile_app, elem_of_app,
      list_elem_of_fmap.
    split.
    + intros [[?|(p & -> & Hp)]|(t' & ps' & p & Ht' & Hps' & Hp & ->)].
      * by left.
      * right. exists t, ps, p. split; [by left|done].
      * right. exists t', ps', p. split; [by right|done].
    + intros [?|(t' & ps' & p & Ht' & Hps' & Hp & ->)]; [by left; left|].
      apply elem_of_cons in Ht' as [->|Ht'].
      * left. right. exists p. split; [done|congruence].
      * right. by exists t', ps', p.
Qed.

Lemma nms_elem P t_iou t_conf k d :
  _non_max_suppression P t_iou t_conf = Some k → d ∈ k →
  d ∈ P ∧ (t_conf <= confidence d)%Q.
Proof.
  rewrite nms_walk. intros [= <-] Hd.
  apply survivors_elem, (sort_desc_elem confidence).
  eapply sublist_subseteq; [apply walk_nil_sublist|done].
Qed.

Lemma merge_prediction_confidence (left top : Z) p :
  confidence (merge_prediction left top p) = confidence p.
Proof. done. Qed.

(** With slicing, on an open image wider or higher than 800 pixels:
    [detect_components] raises exactly when the step of the loop body
    that yields the predictions of a tile (crop, temporary JPEG file,
    call of the service) raises on one of the tiles; and every
    prediction it returns is a prediction of one of the tiles, of a
    confidence not below the threshold, with the position of the tile
    added to its centre. *)
Theorem detect_components_sliced (img_width img_height : Z) :
  (800 < img_width ∨ 800 < img_height)%Z →
  let tiles :=
    tile_boxes SLICE_SIZE (slice_step SLICE_SIZE OVERLAP_RATIO)
      img_width img_height in
  (detect_components tile_step image_step img_width img_height true = None
   ↔ ∃ t, t ∈ tiles ∧ tile_step t = None)
  ∧ ∀ result d,
      detect_components tile_step image_step img_width img_height true
      = Some result →
      d ∈ result →
      ∃ t ps p, t ∈ tiles ∧ tile_step t = Some ps ∧ p ∈ ps
                ∧ (CONFIDENCE_THRESHOLD <= confidence p)%Q
                ∧ d = merge_prediction (t_left t) (t_top t) p.
Proof.
  intros Hsize tiles. unfold detect_components.
  assert (((800 <? img_width) || (800 <? img_height))%Z = true) as ->.
  { apply orb_true_iff. rewrite !Z.ltb_lt. done. }
  cbn [andb]. fold tiles.
  destruct (merge_tiles tile_step tiles []) as [merged|] eqn:E;
    cbn [mbind option_bind].
  - split.
    + rewrite nms_walk. split; [done|].
      intros H. apply (merge_tiles_None tiles []) in H. congruence.
    + intros result d Hr Hd.
      destruct (nms_elem _ _ _ _ _ Hr Hd) as [Hin Hc].
      apply (merge_tiles_elem _ _ _ _ E) in Hin
        as [[]%elem_of_nil|(t & ps & p & Ht & Hps & Hp & ->)].
      by exists t, ps, p.
  - split; [|done]. split; [|done]. intros _.
    by apply (merge_tiles_None tiles []).
Qed.

(** What [detect_components] returns passes the confidence filter of
    the endpoint unchanged, for every threshold of the filter up to the
    threshold of the detection. *)
Theorem detect_components_filter (img_width img_height : Z)
    (use_slicing : bool) result (threshold : Q) :
  (threshold <= CONFIDENCE_THRESHOLD)%Q →
  detect_components tile_step image_step img_width img_height use_slicing
  = Some result →
  filter_low_confidence (parse_detections result) threshold
  = parse_detections result.
Proof.
  intros Ht Hr.
  assert (∃ P, _non_max_suppression P IOU_THRESHOLD CONFIDENCE_THRESHOLD
               = Some result) as [P HP].
  { unfold detect_components in Hr. destruct (_ && _).
    - destruct (merge_tiles _ _ _) as [P|]; [|done]. by exists P.
    - destruct image_step as [P|]; [|done]. by exists P. }
  assert (Hall : ∀ d, d ∈ result → (threshold <= confidence d)%Q).
  { intros d Hd. destruct (nms_elem _ _ _ _ _ HP Hd) as [_ Hc]. lra. }
  clear HP Hr. unfold filter_low_confidence, parse_detections.
  induction result as [|d result IH]; [done|].
  assert (Hd : Qle_bool threshold (default 0%Q (p_confidence d)) = true).
  { apply Qle_bool_iff, (Hall d). by left. }
  cbn [fmap list_fmap List.filter det_confidence]. rewrite Hd.
  f_equal. apply IH. intros d' Hd'. apply Hall. by right.
Qed.
End Detection.

Lemma detect_components_sliced_witness :
  let tile_step := λ t : tile, Some [det09] in
  let tiles :=
    tile_boxes SLICE_SIZE (slice_step SLICE_SIZE OVERLAP_RATIO) 1000 900 in
  (detect_components tile_step None 1000 900 true = None
   ↔ ∃ t, t ∈ tiles ∧ tile_step t = None)
  ∧ ∀ result d,
      detect_components tile_step None 1000 900 true = Some result →
      d ∈ result →
      ∃ t ps p, t ∈ tiles ∧ tile_step t = Some ps ∧ p ∈ ps
                ∧ (CONFIDENCE_THRESHOLD <= confidence p)%Q
                ∧ d = merge_prediction (t_left t) (t_top t) p.
Proof.
  apply (detect_components_sliced (λ _, Some [det09]) None 1000 900).
  left. lia.
Defined.

Lemma detect_components_filter_witness :
  filter_low_confidence (parse_detections [det09]) 0.25
  = parse_detections [det09].
Proof.
  apply (detect_components_filter (λ _, None) (Some [det04; det09; det06])
           100 100 true).
  - unfold CONFIDENCE_THRESHOLD. lra.
  - by vm_compute.
Defined.

(** ** Naming: OCR text or generic identifier *)

Section Names.
Context (ocr : bbox → option (option string)).
Implicit Types (comp : detected) (counters : gmap string nat).

Lemma prefix_table_nonempty key prefix :
  (key, prefix) ∈ prefix_table → prefix ≠ ""%string.
Proof.
  unfold prefix_table. rewrite !elem_of_cons, elem_of_nil.
  intros H ->. naive_solver.
Qed.

Lemma generic_id_nonempty prefix (n : nat) :
  prefix ≠ ""%string → prefix +:+ pretty n ≠ ""%string.
Proof. by destruct prefix. Qed.

Lemma get_component_name_spec comp counters :
  has_counters counters →
  ∃ name counters',
    get_component_name ocr comp counters = Some (name, counters')
    ∧ has_counters counters' ∧ name ≠ ""%string.
Proof.
  intros Hc.
  assert (Hg : ∃ name counters',
             get_generic_id (class_name comp) counters
             = Some (name, counters')
             ∧ has_counters counters' ∧ name ≠ ""%string).
  { destruct (get_generic_id_spec (class_name comp) counters Hc)
      as (key & prefix & n & _ & Ht & _ & ->).
    eexists _, _. split; [done|]. split; [by apply has_counters_insert|].
    by eapply generic_id_nonempty, prefix_table_nonempty. }
  unfold get_component_name. destruct (should_run_ocr _); [|done].
  destruct (ocr _) as [[text|]|]; [|done..].
  case_decide; [|done]. by exists text, counters.
Qed.

Lemma get_component_name_no_text comp counters :
  no_text ocr comp →
  get_component_name ocr comp counters
  = get_generic_id (class_name comp) counters.
Proof.
  unfold no_text, get_component_name.
  intros [-> | [-> | [-> | ->]]]; [done|by destruct (should_run_ocr _)..].
Qed.

(** After the counters are in place, naming never raises.  It gives one
    component per detection, in the same order, with the class and the
    box of the detection, and an identifier that is not empty. *)
Theorem name_components_spec (comps : list detected) counters :
  has_counters counters →
  ∃ named counters',
    name_components ocr comps counters = Some (named, counters')
    ∧ type <$> named = class_name <$> comps
    ∧ comp_bbox <$> named = det_bbox <$> comps
    ∧ ∀ c, c ∈ named → id c ≠ ""%string.
Proof.
  revert counters. induction comps as [|comp comps IH]; intros counters Hc.
  - exists [], counters. repeat split; try done. by intros c Hc'%elem_of_nil.
  - cbn [name_components].
    destruct (get_component_name_spec comp counters Hc)
      as (name & counters1 & -> & Hc1 & Hname). cbn.
    destruct (IH counters1 Hc1) as (named & counters' & -> & Ht & Hb & Hid).
    cbn. eexists _, _. split; [done|]. cbn. rewrite Ht, Hb.
    split; [done|]. split; [done|].
    intros c [-> | Hin]%elem_of_cons; [done|by apply Hid].
Qed.

(** When the OCR gives no name for any of the components, their
    identifiers are the generic identifiers of their class names, in
    order, and the counters end in the same state. *)
Theorem name_components_generic (comps : list detected) counters :
  (∀ comp, comp ∈ comps → no_text ocr comp) →
  (λ r : list component * gmap string nat, (id <$> r.1, r.2))
    <$> name_components ocr comps counters
  = get_generic_ids (class_name <$> comps) counters.
Proof.
  revert counters. induction comps as [|comp comps IH]; intros counters Hn;
    [done|].
  cbn [name_components get_generic_ids fmap list_fmap].
  rewrite get_component_name_no_text by (apply Hn; by left).
  destruct (get_generic_id _ _) as [[name counters1]|]; [|done]. cbn.
  rewrite <- (IH counters1) by (intros c Hc; apply Hn; by right).
  by destruct (name_components ocr comps counters1) as [[named counters']|].
Qed.
End Names.

Lemma name_components_spec_witness :
  ∃ named counters',
    name_components (λ _, Some (Some "NE555"%string))
      [detected_at "Resistor" 10 10; detected_at "IC" 50 10]
      (reset_counters component_counters)
    = Some (named, counters')
    ∧ type <$> named = ["Resistor"; "IC"]%string
    ∧ comp_bbox <$> named = [BBox 10 10 10 10; BBox 50 10 10 10]
    ∧ ∀ c, c ∈ named → id c ≠ ""%string.
Proof.
  apply (name_components_spec (λ _, Some (Some "NE555"%string))
           [detected_at "Resistor" 10 10; detected_at "IC" 50 10]).
  apply has_counters_reset, component_counters_has.
Defined.

Lemma name_components_generic_witness :
  (λ r : list component * gmap string nat, (id <$> r.1, r.2))
    <$> name_components (λ _, Some (Some "NE555"%string))
          [detected_at "Resistor" 10 10; detected_at "Capacitor" 50 10]
          (reset_counters component_counters)
  = get_generic_ids ["Resistor"; "Capacitor"]%string
      (reset_counters component_counters).
Proof.
  apply (name_components_generic (λ _, Some (Some "NE555"%string))
           [detected_at "Resistor" 10 10; detected_at "Capacitor" 50 10]).
  intros comp Hcomp. left.
  apply elem_of_cons in Hcomp as [-> | Hcomp]; [done|].
  apply elem_of_cons in Hcomp as [-> | Hcomp]; [done|].
  by apply elem_of_nil in Hcomp.
Defined.

(** The classes that get the prefixes [U], [D], [LED] and [Q] are always
    sent to the OCR. *)
Theorem should_run_ocr_marked (class_name : string) :
  key_of class_name ∈ ["ic"; "diode"; "led"; "transistor"]%string →
  should_run_ocr class_name = true.
Proof.
  unfold key_of, classify, should_run_ocr.
  set (l := lower class_name). cbn [existsb].
  destruct (contains "resistor" l); cbn [fst];
    [by rewrite !elem_of_cons, elem_of_nil; naive_solver|].
  destruct (contains "capacitor" l); cbn [fst];
    [by rewrite !elem_of_cons, elem_of_nil; naive_solver|].
  destruct (contains "ic" l); [done|].
  destruct (contains "chip" l); [done|].
  destruct (contains "integrated" l); [done|]. cbn [orb fst].
  destruct (contains "diode" l); cbn [fst orb];
    [by destruct (contains "circuit" l)|].
  destruct (contains "led" l); cbn [fst orb];
    [by destruct (contains "circuit" l)|].
  destruct (contains "transistor" l); cbn [fst orb];
    [by destruct (contains "circuit" l)|].
  rewrite !elem_of_cons, elem_of_nil. naive_solver.
Qed.

Lemma should_run_ocr_marked_witness : should_run_ocr "LED" = true.
Proof. apply should_run_ocr_marked. vm_compute. do 2 right. left. Defined.

(** ** Cropping *)

Section Crop.
Context {A : Type}.
Implicit Types (image : list (list A)) (b : bbox).

(** For a box whose right and lower edges are not left of or above the
    image, the crop is the window of the rows and columns between the
    bounds that the code computes. *)
Theorem crop_image_window image b :
  let x_center := Py.int (bx b) in
  let y_center := Py.int (by_ b) in
  let half_width := Py.floordiv (Py.int (bwidth b)) 2 in
  let half_height := Py.floordiv (Py.int (bheight b)) 2 in
  let shape1 := match image with
                | [] => 0%Z
                | row :: _ => Z.of_nat (length row)
                end in
  (0 <= x_center + half_width)%Z → (0 <= y_center + half_height)%Z →
  crop_image image b
  = window (Z.to_nat (Z.max 0 (x_center - half_width)))
      (Z.to_nat (Z.min shape1 (x_center + half_width)))
    <$> window (Z.to_nat (Z.max 0 (y_center - half_height)))
          (Z.to_nat (Z.min (Z.of_nat (length image))
                       (y_center + half_height)))
          image.
Proof.
  intros x_center y_center half_width half_height shape1 Hx Hy.
  unfold crop_image. fold x_center y_center half_width half_height shape1.
  assert (0 <= shape1)%Z by (unfold shape1; destruct image; lia).
  rewrite slice_nonneg by lia. apply list_fmap_ext. intros _ row _.
  by rewrite slice_nonneg by lia.
Qed.
End Crop.

Lemma crop_image_window_witness :
  crop_image [[1; 2; 3; 4]; [5; 6; 7; 8]; [9; 10; 11; 12]]%Z (BBox 2 1 2 2)
  = window 1 3 <$> window 0 2 [[1; 2; 3; 4]; [5; 6; 7; 8]; [9; 10; 11; 12]]%Z.
Proof.
  apply (crop_image_window [[1; 2; 3; 4]; [5; 6; 7; 8]; [9; 10; 11; 12]]%Z
           (BBox 2 1 2 2)); by vm_compute.
Defined.
